(** * Fleet optimizer service (services/fleet-optimizer/app.py)

    A shallow embedding of the route optimizer and of the HTTP handlers
    built on it, with the properties of the written specification stated
    and proved (or refuted) on the embedding.

    Modelling conventions.

    - Python [float] values are read as real numbers ([R]): [math.sin],
      [math.cos], [math.asin], [math.sqrt] are the real functions, and
      rounding, NaN and infinities are out of the model.  The only
      infinity of the source, [float('inf')] as the initial
      [nearest_distance], is the [None] of an option.
    - Python [int] values are [Z]; [len] results are [nat].  An [int]
      that meets a [float] in an arithmetic operation is first converted
      to a float, which raises [OverflowError] when it is beyond the
      float range ([float_of_int]).
    - Exceptions are explicit: a computation is a [comp], which returns,
      raises, or fails to finish within the iteration budget of a
      [while] loop.  [try ... except Exception] is [catch].
    - [list.remove] removes the first element equal (dataclass [==], which
      is field-wise) to its argument and raises [ValueError] without one.
    - the [assignments] dict is a finite map on vehicle ids.
    - Clock readings and generated uuids ([optimization_timestamp], the
      record [id] and [timestamp]) carry no information used by any
      property below and are left out of the records. *)

From Stdlib Require Import Reals Lra ZArith.
From stdpp Require Import gmap strings list fin_maps sorting.

(** ** Numbers *)

#[global] Instance Rlt_decision (x y : R) : Decision (x < y)%R := Rlt_dec x y.
#[global] Instance Rgt_decision (x y : R) : Decision (x > y)%R := Rgt_dec x y.
#[global] Instance R_eq_decision : EqDecision R := Req_dec_T.

(** [math.radians] *)
Definition radians (x : R) : R := (x * (PI / 180))%R.

(** The integers that convert to a float: rounding to 53 bits must stay
    below [2 ^ 1024]. *)
Definition float_max_int : Z := (2 ^ 1024 - 2 ^ 970)%Z.

Definition float_range (n : Z) : Prop := (Z.abs n < float_max_int)%Z.

#[global] Instance float_range_dec n : Decision (float_range n).
Proof. unfold float_range. apply _. Defined.

(** ** Exceptions and non-termination *)

Inductive exn : Set := ZeroDivisionError | ValueError | OverflowError.

Inductive comp (A : Type) : Type :=
  | Ret (a : A)
  | Raise (e : exn)
  | Diverge.
Arguments Ret {A} a.
Arguments Raise {A} e.
Arguments Diverge {A}.

#[global] Instance comp_ret : MRet comp := @Ret.
#[global] Instance comp_bind : MBind comp := λ A B f c,
  match c with
  | Ret a => f a
  | Raise e => Raise e
  | Diverge => Diverge
  end.

(** [try: c  except Exception as e: h e] *)
Definition catch {A} (c : comp A) (h : exn → comp A) : comp A :=
  match c with
  | Raise e => h e
  | _ => c
  end.

(** The conversion of an [int] operand of a [float] operation. *)
Definition float_of_int (n : Z) : comp R :=
  if decide (float_range n) then Ret (IZR n) else Raise OverflowError.

(** Left-to-right loop with an accumulator whose body may raise. *)
Fixpoint for_each {A B} (body : A → B → comp A) (acc : A) (l : list B) : comp A :=
  match l with
  | [] => Ret acc
  | x :: l' => acc' ← body acc x; for_each body acc' l'
  end.

(** [l.remove(x)] *)
Fixpoint list_remove `{EqDecision A} (x : A) (l : list A) : comp (list A) :=
  match l with
  | [] => Raise ValueError
  | y :: l' => if decide (y = x) then Ret l' else k ← list_remove x l'; Ret (y :: k)
  end.

(** ** Data model *)

Module DeliveryStop.
Record t : Type := mk {
  id : string;
  name : string;
  latitude : R;
  longitude : R;
  priority : Z;
  time_window_start : string;
  time_window_end : string;
  estimated_duration : Z
}.
End DeliveryStop.

Module Vehicle.
Record t : Type := mk {
  id : string;
  driver_name : string;
  capacity : R;
  current_lat : R;
  current_lon : R;
  fuel_level : R;
  max_fuel : R
}.
End Vehicle.

#[global] Instance DeliveryStop_eq_dec : EqDecision DeliveryStop.t.
Proof. solve_decision. Defined.

#[global] Instance Vehicle_eq_dec : EqDecision Vehicle.t.
Proof. solve_decision. Defined.

(** ** DistanceModel *)

Definition calculate_distance (lat1 lon1 lat2 lon2 : R) : R :=
  let R_earth := 6371%R in
  let lat1_rad := radians lat1 in
  let lon1_rad := radians lon1 in
  let lat2_rad := radians lat2 in
  let lon2_rad := radians lon2 in
  let dlat := (lat2_rad - lat1_rad)%R in
  let dlon := (lon2_rad - lon1_rad)%R in
  let a := (sin (dlat / 2) ^ 2
            + cos lat1_rad * cos lat2_rad * sin (dlon / 2) ^ 2)%R in
  let c := (2 * asin (sqrt a))%R in
  (R_earth * c)%R.

(** ** RouteBuilder *)

(** The dict returned by [optimize_route].  The early return for an empty
    stop list has only the keys [route], [total_distance] and
    [estimated_time]; the other keys are then absent ([None]). *)
Record RouteResult : Type := mkRouteResult {
  vehicle_id : option string;
  route : list DeliveryStop.t;
  total_distance : R;
  estimated_time : R;
  stops_count : option nat;
  optimization_method : option string
}.

(** [{'error': str(e)}] or a route dict *)
Inductive RouteDict : Type :=
  | RouteOk (r : RouteResult)
  | RouteError (e : exn).

Definition raw_distance (current_lat current_lon : R) (stop : DeliveryStop.t) : R :=
  calculate_distance current_lat current_lon
    (DeliveryStop.latitude stop) (DeliveryStop.longitude stop).

(** [1.0 - (stop.priority - 1) * 0.1]: the [int] [stop.priority - 1] is
    converted for the product. *)
Definition priority_factor (stop : DeliveryStop.t) : comp R :=
  offset ← float_of_int (DeliveryStop.priority stop - 1);
  Ret (1.0 - offset * 0.1)%R.

(** One iteration of [for stop in unvisited].  The pair
    [(nearest_stop, nearest_distance)] is [None] while it still holds
    [(None, float('inf'))]: both variables are only ever assigned
    together, and every real number is below infinity. *)
Definition nearest_step (current_lat current_lon : R)
    (nearest : option (DeliveryStop.t * R)) (stop : DeliveryStop.t)
    : comp (option (DeliveryStop.t * R)) :=
  let distance := calculate_distance current_lat current_lon
                    (DeliveryStop.latitude stop) (DeliveryStop.longitude stop) in
  priority_factor ← priority_factor stop;
  let adjusted := (distance * priority_factor)%R in
  match nearest with
  | None => Ret (Some (stop, distance))
  | Some (nearest_stop, nearest_distance) =>
      if decide (adjusted < nearest_distance)%R
      then Ret (Some (stop, distance))
      else Ret (Some (nearest_stop, nearest_distance))
  end.

Definition find_nearest (current_lat current_lon : R) (unvisited : list DeliveryStop.t)
    : comp (option (DeliveryStop.t * R)) :=
  for_each (nearest_step current_lat current_lon) None unvisited.

(** [while unvisited: ...]; [fuel] bounds the number of iterations. *)
Fixpoint route_loop (fuel : nat) (current_lat current_lon : R)
    (unvisited route : list DeliveryStop.t) (total_distance : R)
    : comp (list DeliveryStop.t * R) :=
  match unvisited with
  | [] => Ret (route, total_distance)
  | _ :: _ =>
      match fuel with
      | O => Diverge
      | S fuel' =>
          nearest ← find_nearest current_lat current_lon unvisited;
          match nearest with
          | Some (nearest_stop, nearest_distance) =>
              unvisited' ← list_remove nearest_stop unvisited;
              route_loop fuel'
                (DeliveryStop.latitude nearest_stop) (DeliveryStop.longitude nearest_stop)
                unvisited' (route ++ [nearest_stop])
                (total_distance + nearest_distance)%R
          | None =>
              route_loop fuel' current_lat current_lon unvisited route total_distance
          end
      end
  end.

Definition total_service_time (route : list DeliveryStop.t) : Z :=
  foldl (λ acc stop, acc + DeliveryStop.estimated_duration stop)%Z 0%Z route.

Definition optimize_route (stops : list DeliveryStop.t) (vehicle : Vehicle.t)
    : comp RouteDict :=
  catch
    (match stops with
     | [] => Ret (RouteOk (mkRouteResult None [] 0 0 None None))
     | _ :: _ =>
         '(route, total_distance) ←
            route_loop (length stops)
              (Vehicle.current_lat vehicle) (Vehicle.current_lon vehicle)
              stops [] 0%R;
         let estimated_time := (total_distance / 40 * 60)%R in
         service_time ← float_of_int (total_service_time route);
         let estimated_time := (estimated_time + service_time)%R in
         Ret (RouteOk (mkRouteResult (Some (Vehicle.id vehicle)) route
                         total_distance estimated_time (Some (length route))
                         (Some "nearest_neighbor_with_priority"%string)))
     end)
    (λ e, Ret (RouteError e)).

(** ** AssignmentEngine *)

Record AssignResult : Type := mkAssignResult {
  assignments : gmap string RouteResult;
  unassigned_deliveries : list DeliveryStop.t;
  total_vehicles_used : nat;
  total_deliveries_assigned : Z
}.

Inductive AssignDict : Type :=
  | AssignOk (r : AssignResult)
  | AssignError (e : exn).

(** The sort key [v.fuel_level / v.max_fuel]. *)
Definition fuel_ratio (v : Vehicle.t) : comp R :=
  if decide (Vehicle.max_fuel v = 0%R) then Raise ZeroDivisionError
  else Ret (Vehicle.fuel_level v / Vehicle.max_fuel v)%R.

(** [sorted(vehicles, key=..., reverse=True)]: the keys are computed
    first, for every vehicle in list order; the sort is stable, also with
    [reverse=True], so vehicles with equal keys keep their order. *)
Fixpoint insert_desc (kv : R * Vehicle.t) (l : list (R * Vehicle.t)) : list (R * Vehicle.t) :=
  match l with
  | [] => [kv]
  | y :: l' => if decide (kv.1 < y.1)%R then y :: insert_desc kv l' else kv :: y :: l'
  end.

Definition sort_desc (l : list (R * Vehicle.t)) : list (R * Vehicle.t) :=
  foldr insert_desc [] l.

Definition sorted_by_fuel (vehicles : list Vehicle.t) : comp (list Vehicle.t) :=
  keys ← mapM fuel_ratio vehicles;
  Ret ((sort_desc (zip keys vehicles)).*2).

(** One iteration of [for delivery in unassigned]. *)
Definition suitable_step (vehicle : Vehicle.t)
    (suitable_stops : list DeliveryStop.t) (delivery : DeliveryStop.t)
    : list DeliveryStop.t :=
  let distance_to_start :=
    calculate_distance (Vehicle.current_lat vehicle) (Vehicle.current_lon vehicle)
      (DeliveryStop.latitude delivery) (DeliveryStop.longitude delivery) in
  if decide (length suitable_stops < 5 ∧ (distance_to_start < 50)%R)
  then suitable_stops ++ [delivery]
  else suitable_stops.

Definition find_suitable (vehicle : Vehicle.t) (unassigned : list DeliveryStop.t)
    : list DeliveryStop.t :=
  foldl (suitable_step vehicle) [] unassigned.

(** [for stop in suitable_stops: unassigned.remove(stop)] *)
Definition remove_each (suitable_stops unassigned : list DeliveryStop.t)
    : comp (list DeliveryStop.t) :=
  for_each (λ unassigned stop, list_remove stop unassigned) unassigned suitable_stops.

(** [for vehicle in available_vehicles: ...] *)
Fixpoint assign_loop (available_vehicles : list Vehicle.t)
    (assignments : gmap string RouteResult) (unassigned : list DeliveryStop.t)
    : comp (gmap string RouteResult * list DeliveryStop.t) :=
  match available_vehicles with
  | [] => Ret (assignments, unassigned)
  | vehicle :: rest =>
      match unassigned with
      | [] => Ret (assignments, unassigned)
      | _ :: _ =>
          match find_suitable vehicle unassigned with
          | [] => assign_loop rest assignments unassigned
          | (_ :: _) as suitable_stops =>
              route_result ← optimize_route suitable_stops vehicle;
              match route_result with
              | RouteOk r =>
                  unassigned' ← remove_each suitable_stops unassigned;
                  assign_loop rest (<[Vehicle.id vehicle := r]> assignments) unassigned'
              | RouteError _ => assign_loop rest assignments unassigned
              end
          end
      end
  end.

(** A call [self.optimize_route(suitable_stops, vehicle)] of the loop,
    with the list [unassigned] that [suitable_stops] was collected
    from. *)
Record RouteCall : Type := mkRouteCall {
  call_vehicle : Vehicle.t;
  call_pool : list DeliveryStop.t;
  call_stops : list DeliveryStop.t
}.

(** The same loop, keeping the calls of [optimize_route] it makes, in
    order, instead of their results. *)
Fixpoint route_calls (available_vehicles : list Vehicle.t)
    (unassigned : list DeliveryStop.t) : list RouteCall :=
  match available_vehicles with
  | [] => []
  | vehicle :: rest =>
      match unassigned with
      | [] => []
      | _ :: _ =>
          match find_suitable vehicle unassigned with
          | [] => route_calls rest unassigned
          | (_ :: _) as suitable_stops =>
              mkRouteCall vehicle unassigned suitable_stops ::
              match optimize_route suitable_stops vehicle with
              | Ret (RouteOk _) =>
                  match remove_each suitable_stops unassigned with
                  | Ret unassigned' => route_calls rest unassigned'
                  | _ => []
                  end
              | Ret (RouteError _) => route_calls rest unassigned
              | _ => []
              end
          end
      end
  end.

Definition assign_routes (deliveries : list DeliveryStop.t) (vehicles : list Vehicle.t)
    : comp AssignDict :=
  catch
    (available_vehicles ← sorted_by_fuel vehicles;
     '(assignments, unassigned) ← assign_loop available_vehicles ∅ deliveries;
     Ret (AssignOk (mkAssignResult assignments unassigned (size assignments)
                      (Z.of_nat (length deliveries) - Z.of_nat (length unassigned)))))
    (λ e, Ret (AssignError e)).

(** ** FuelFeasibilityEvaluator *)

Record FuelResult : Type := mkFuelResult {
  fe_vehicle_id : string;
  route_distance : R;
  estimated_fuel_consumption : R;
  current_fuel_level : R;
  fe_max_fuel : R;
  fuel_deficit : R;
  fuel_percentage : R;
  needs_refuel : bool
}.

Inductive FuelDict : Type :=
  | FuelOk (r : FuelResult)
  | FuelError (e : exn).

(** [(vehicle.fuel_level / vehicle.max_fuel) * 100] *)
Definition fuel_percentage_of (vehicle : Vehicle.t) : comp R :=
  ratio ← fuel_ratio vehicle; Ret (ratio * 100)%R.

Definition calculate_fuel_efficiency (vehicle : Vehicle.t) (route_distance : R)
    : comp FuelDict :=
  catch
    (let fuel_per_km := 0.08%R in
     let estimated_fuel_needed := (route_distance * fuel_per_km)%R in
     let fuel_deficit := Rmax 0 (estimated_fuel_needed - Vehicle.fuel_level vehicle) in
     fuel_percentage ← fuel_percentage_of vehicle;
     Ret (FuelOk (mkFuelResult (Vehicle.id vehicle) route_distance
                    estimated_fuel_needed (Vehicle.fuel_level vehicle)
                    (Vehicle.max_fuel vehicle) fuel_deficit fuel_percentage
                    (bool_decide (fuel_deficit > 5)%R))))
    (λ e, Ret (FuelError e)).

(** ** OptimizationLedger and RecommendationEngine *)

Record OptimizationRecord : Type := mkOptimizationRecord {
  total_deliveries : nat;
  total_vehicles : nat;
  assignments_made : Z;
  efficiency_score : R
}.

(** A recommendation dict, by its ['type'].  The fixed texts and the
    message, which is formatted from the fields kept here, are left out. *)
Inductive Recommendation : Type :=
  | fuel_alert (vehicle_id driver_name : string) (fuel_percentage : R)
  | fuel_warning (vehicle_id driver_name : string) (fuel_percentage : R)
  | efficiency_improvement (avg_efficiency : R).

Module FleetOptimizerService.
Record t : Type := mk {
  vehicles : list Vehicle.t;
  routes : list RouteResult;
  deliveries : list DeliveryStop.t;
  optimization_history : list OptimizationRecord
}.
(** [__init__] *)
Definition init : t := mk [] [] [] [].
End FleetOptimizerService.

(** The body of [for vehicle in self.vehicles]. *)
Definition fuel_check (recommendations : list Recommendation) (vehicle : Vehicle.t)
    : comp (list Recommendation) :=
  fuel_percentage ← fuel_percentage_of vehicle;
  if decide (fuel_percentage < 20)%R then
    Ret (recommendations ++
           [fuel_alert (Vehicle.id vehicle) (Vehicle.driver_name vehicle) fuel_percentage])
  else if decide (fuel_percentage < 40)%R then
    Ret (recommendations ++
           [fuel_warning (Vehicle.id vehicle) (Vehicle.driver_name vehicle) fuel_percentage])
  else Ret recommendations.

(** [l[start:]] for a Python list, [start] of either sign. *)
Definition slice_from {A} (start : Z) (l : list A) : list A :=
  let start := if decide (start < 0)%Z
               then Z.max 0 (start + Z.of_nat (length l)) else start in
  drop (Z.to_nat start) l.

(** [sum(opt.get('efficiency_score', 0) for opt in recent)] *)
Definition sum_efficiency (recent : list OptimizationRecord) : R :=
  foldl (λ acc opt, acc + efficiency_score opt)%R 0%R recent.

Definition efficiency_check (recommendations : list Recommendation)
    (optimization_history : list OptimizationRecord) : comp (list Recommendation) :=
  if decide (5 < length optimization_history) then
    let recent_optimizations := slice_from (-5) optimization_history in
    if decide (length recent_optimizations = 0) then Raise ZeroDivisionError
    else
      let avg_efficiency :=
        (sum_efficiency recent_optimizations / INR (length recent_optimizations))%R in
      if decide (avg_efficiency < 0.7)%R
      then Ret (recommendations ++ [efficiency_improvement avg_efficiency])
      else Ret recommendations
  else Ret recommendations.

Definition get_optimization_recommendations (self : FleetOptimizerService.t)
    : comp (list Recommendation) :=
  catch
    (recommendations ← for_each fuel_check [] (FleetOptimizerService.vehicles self);
     efficiency_check recommendations (FleetOptimizerService.optimization_history self))
    (λ _, Ret []).

(** ** HTTP handlers *)

(** The JSON body of [POST /optimize] after [get_json] and the field
    coercions of the handler: [NoData] is a falsy body, [BadField] a body
    on which a coercion ([float(...)], [int(...)]) or a field access
    raises, [Payload] the parsed stops and vehicles, defaults filled in. *)
Inductive OptimizeBody : Type :=
  | NoData
  | BadField (e : exn)
  | Payload (deliveries : list DeliveryStop.t) (vehicles : list Vehicle.t).

Inductive FuelBody : Type :=
  | FuelNoData
  | FuelBadField (e : exn)
  | FuelPayload (vehicle : Vehicle.t) (route_distance : R).

Inductive Request : Type :=
  | GET_health
  | POST_optimize (body : OptimizeBody)
  | POST_fuel_efficiency (body : FuelBody)
  | GET_recommendations
  | GET_history (limit : Z).

Inductive Response : Type :=
  | HealthResponse (vehicles_registered active_routes : nat)
  | OptimizeResponse (result : AssignDict) (recommendations : list Recommendation)
  | FuelResponse (result : FuelDict)
  | RecommendationsResponse (recommendations : list Recommendation) (total_count : nat)
  | HistoryResponse (history : list OptimizationRecord) (total_count showing : nat)
  | Error400
  | Error500 (e : exn).

(** [result.get('total_deliveries_assigned', 0)] *)
Definition get_total_deliveries_assigned (result : AssignDict) : Z :=
  match result with
  | AssignOk r => total_deliveries_assigned r
  | AssignError _ => 0%Z
  end.

Definition record_history (self : FleetOptimizerService.t) (rec : OptimizationRecord)
    : FleetOptimizerService.t :=
  FleetOptimizerService.mk
    (FleetOptimizerService.vehicles self)
    (FleetOptimizerService.routes self)
    (FleetOptimizerService.deliveries self)
    (FleetOptimizerService.optimization_history self ++ [rec]).

Definition optimize_routes (self : FleetOptimizerService.t) (body : OptimizeBody)
    : comp (FleetOptimizerService.t * Response) :=
  match body with
  | NoData => Ret (self, Error400)
  | BadField e => Ret (self, Error500 e)
  | Payload deliveries vehicles =>
      result ← assign_routes deliveries vehicles;
      let assigned := get_total_deliveries_assigned result in
      let optimization_record :=
        mkOptimizationRecord (length deliveries) (length vehicles) assigned
          (IZR assigned / IZR (Z.max 1 (Z.of_nat (length deliveries))))%R in
      let self := record_history self optimization_record in
      recommendations ← get_optimization_recommendations self;
      Ret (self, OptimizeResponse result recommendations)
  end.

Definition fuel_efficiency_endpoint (self : FleetOptimizerService.t) (body : FuelBody)
    : comp (FleetOptimizerService.t * Response) :=
  match body with
  | FuelNoData => Ret (self, Error400)
  | FuelBadField e => Ret (self, Error500 e)
  | FuelPayload vehicle route_distance =>
      result ← calculate_fuel_efficiency vehicle route_distance;
      Ret (self, FuelResponse result)
  end.

Definition get_recommendations (self : FleetOptimizerService.t)
    : comp (FleetOptimizerService.t * Response) :=
  recommendations ← get_optimization_recommendations self;
  Ret (self, RecommendationsResponse recommendations (length recommendations)).

Definition get_optimization_history (self : FleetOptimizerService.t) (limit : Z)
    : FleetOptimizerService.t * Response :=
  let all := FleetOptimizerService.optimization_history self in
  let history := match all with [] => [] | _ :: _ => slice_from (- limit) all end in
  (self, HistoryResponse history (length all) (length history)).

Definition health_check (self : FleetOptimizerService.t)
    : FleetOptimizerService.t * Response :=
  (self, HealthResponse (length (FleetOptimizerService.vehicles self))
           (length (FleetOptimizerService.routes self))).

Definition handle (self : FleetOptimizerService.t) (req : Request)
    : comp (FleetOptimizerService.t * Response) :=
  match req with
  | GET_health => Ret (health_check self)
  | POST_optimize body => optimize_routes self body
  | POST_fuel_efficiency body => fuel_efficiency_endpoint self body
  | GET_recommendations => get_recommendations self
  | GET_history limit => Ret (get_optimization_history self limit)
  end.

(** A sequence of API calls against the process-wide service object. *)
Fixpoint serve (self : FleetOptimizerService.t) (reqs : list Request)
    : comp (FleetOptimizerService.t * list Response) :=
  match reqs with
  | [] => Ret (self, [])
  | req :: reqs' =>
      '(self', resp) ← handle self req;
      '(self'', resps) ← serve self' reqs';
      Ret (self'', resp :: resps)
  end.

Definition recommendations_of (resp : Response) : list Recommendation :=
  match resp with
  | OptimizeResponse _ recommendations => recommendations
  | RecommendationsResponse recommendations _ => recommendations
  | _ => []
  end.

Definition is_fuel_recommendation (r : Recommendation) : bool :=
  match r with
  | fuel_alert _ _ _ | fuel_warning _ _ _ => true
  | efficiency_improvement _ => false
  end.

Definition is_efficiency_improvement (r : Recommendation) : bool :=
  match r with
  | efficiency_improvement _ => true
  | _ => false
  end.

(** ** Vocabulary of the specification *)

(** The adjusted score of a stop: raw distance times
    [1 - (priority - 1) * 0.1], over the reals. *)
Definition adjusted_distance (current_lat current_lon : R) (stop : DeliveryStop.t) : R :=
  (raw_distance current_lat current_lon stop
   * (1.0 - IZR (DeliveryStop.priority stop - 1) * 0.1))%R.

(** A stop list on which the route builder meets no [int] beyond the
    float range: neither a priority offset nor the sum of the durations. *)
Definition convertible_priority (stop : DeliveryStop.t) : Prop :=
  float_range (DeliveryStop.priority stop - 1).

Definition sum_durations (stops : list DeliveryStop.t) : Z :=
  foldr (λ stop acc, DeliveryStop.estimated_duration stop + acc)%Z 0%Z stops.

Definition buildable (stops : list DeliveryStop.t) : Prop :=
  Forall convertible_priority stops ∧ float_range (sum_durations stops).

(** Deliveries of which no selection of up to five overflows a route
    build. *)
Definition no_overflow (deliveries : list DeliveryStop.t) : Prop :=
  ∀ stops, stops `sublist_of` deliveries → length stops ≤ 5 → buildable stops.

(** A stop qualifies for a vehicle when it lies under 50 km from the
    vehicle's position. *)
Definition near (vehicle : Vehicle.t) (delivery : DeliveryStop.t) : Prop :=
  (raw_distance (Vehicle.current_lat vehicle) (Vehicle.current_lon vehicle) delivery < 50)%R.

#[global] Instance near_dec vehicle delivery : Decision (near vehicle delivery).
Proof. unfold near. apply _. Defined.

(** "The first (up to 5) qualifying stops in pool iteration order". *)
Definition candidates (vehicle : Vehicle.t) (pool : list DeliveryStop.t)
    : list DeliveryStop.t :=
  take 5 (filter (near vehicle) pool).

(** What a call leaves in [assignments]: the route built, under the
    vehicle's id, in place of an earlier one under the same id. *)
Definition record_call (assignments : gmap string RouteResult) (c : RouteCall)
    : gmap string RouteResult :=
  match optimize_route (call_stops c) (call_vehicle c) with
  | Ret (RouteOk r) => <[Vehicle.id (call_vehicle c) := r]> assignments
  | _ => assignments
  end.

(** All stops of all per-vehicle routes. *)
Definition assigned_stops (assignments : gmap string RouteResult) : list DeliveryStop.t :=
  mjoin (route <$> (map_to_list assignments).*2).

(** The partition property of a run: the routes together with the
    leftovers are the submitted deliveries, nothing is both assigned and
    left over, and no two vehicles share a stop. *)
Definition partitions (deliveries : list DeliveryStop.t) (r : AssignResult) : Prop :=
  assigned_stops (assignments r) ++ unassigned_deliveries r ≡ₚ deliveries ∧
  (∀ x, x ∈ assigned_stops (assignments r) → x ∉ unassigned_deliveries r) ∧
  (∀ k1 k2 r1 r2 x,
     k1 ≠ k2 → assignments r !! k1 = Some r1 → assignments r !! k2 = Some r2 →
     x ∈ route r1 → x ∉ route r2).

(** [ratio = fuel_level / max_fuel * 100] *)
Definition ratio (vehicle : Vehicle.t) : R :=
  (Vehicle.fuel_level vehicle / Vehicle.max_fuel vehicle * 100)%R.

(** "If ratio < 20, emit a fuel_alert.  Else if ratio < 40, emit a
    fuel_warning.  Otherwise emit nothing for that vehicle." *)
Definition vehicle_recommendations (vehicle : Vehicle.t) : list Recommendation :=
  if decide (ratio vehicle < 20)%R then
    [fuel_alert (Vehicle.id vehicle) (Vehicle.driver_name vehicle) (ratio vehicle)]
  else if decide (ratio vehicle < 40)%R then
    [fuel_warning (Vehicle.id vehicle) (Vehicle.driver_name vehicle) (ratio vehicle)]
  else [].

(** "If the ledger has more than 5 entries, compute the mean efficiency
    score of the most recent 5; if the mean is below 0.7, append one
    efficiency_improvement recommendation." *)
Definition recent_mean (history : list OptimizationRecord) : R :=
  (sum_efficiency (drop (length history - 5) history) / 5)%R.

Definition ledger_recommendations (history : list OptimizationRecord)
    : list Recommendation :=
  if decide (5 < length history) then
    if decide (recent_mean history < 0.7)%R
    then [efficiency_improvement (recent_mean history)] else []
  else [].

(** What the evaluator is specified to return for a vehicle and a route
    distance. *)
Definition fuel_feasibility (vehicle : Vehicle.t) (distance : R) (r : FuelResult) : Prop :=
  estimated_fuel_consumption r = (distance * 0.08)%R ∧
  fuel_deficit r = Rmax 0 (estimated_fuel_consumption r - Vehicle.fuel_level vehicle) ∧
  (needs_refuel r = true ↔ (fuel_deficit r > 5)%R).

Definition evaluates (vehicle : Vehicle.t) (distance : R) : Prop :=
  ∃ r, calculate_fuel_efficiency vehicle distance = Ret (FuelOk r) ∧
       fuel_feasibility vehicle distance r.

(** The rule of the specification for one vehicle of the fleet state: an
    alert, a warning or nothing, by the band its ratio falls in. *)
Definition fuel_rule (recs : list Recommendation) (vehicle : Vehicle.t) : Prop :=
  (fuel_alert (Vehicle.id vehicle) (Vehicle.driver_name vehicle) (ratio vehicle) ∈ recs
     ↔ (ratio vehicle < 20)%R) ∧
  (fuel_warning (Vehicle.id vehicle) (Vehicle.driver_name vehicle) (ratio vehicle) ∈ recs
     ↔ (20 <= ratio vehicle < 40)%R).

Definition efficiency_entries (recs : list Recommendation) : list Recommendation :=
  filter is_efficiency_improvement recs.

Definition with_history (history : list OptimizationRecord) : FleetOptimizerService.t :=
  FleetOptimizerService.mk [] [] [] history.

Definition run_with_score (score : R) : OptimizationRecord :=
  mkOptimizationRecord 2 1 1 score.

(** A response carries no fuel_alert and no fuel_warning entry. *)
Definition no_fuel_entries (resp : Response) : Prop :=
  ∀ r, r ∈ recommendations_of resp → is_fuel_recommendation r = false.

(** "The stop whose adjusted score is minimal among all remaining stops,
    ties broken in favour of the first stop in iteration order." *)
Definition min_adjusted (current_lat current_lon : R)
    (unvisited : list DeliveryStop.t) (stop : DeliveryStop.t) : Prop :=
  ∃ i, unvisited !! i = Some stop ∧
       ∀ j other, unvisited !! j = Some other →
         (adjusted_distance current_lat current_lon stop
            <= adjusted_distance current_lat current_lon other)%R ∧
         (j < i → (adjusted_distance current_lat current_lon stop
                     < adjusted_distance current_lat current_lon other)%R).

(** ** Concrete inputs *)

(** Scenario B of the specification: one vehicle at (0,0) with fuel 50 of
    60, deliveries at (0,1) with priority 1 and at (0,2) with priority 5,
    10 minutes each; the fields the scenario leaves open take the defaults
    of the /optimize handler. *)
Definition scenario_vehicle : Vehicle.t :=
  Vehicle.mk "v1" "Unknown" 1000 0 0 50 60.
Definition scenario_stop1 : DeliveryStop.t :=
  DeliveryStop.mk "d1" "Delivery Point" 0 1 1 "09:00" "17:00" 10.
Definition scenario_stop2 : DeliveryStop.t :=
  DeliveryStop.mk "d2" "Delivery Point" 0 2 5 "09:00" "17:00" 10.

(** The same scenario with the stops a tenth as far out, within reach. *)
Definition reach_stop1 : DeliveryStop.t :=
  DeliveryStop.mk "d1" "Delivery Point" 0 0.1 1 "09:00" "17:00" 10.
Definition reach_stop2 : DeliveryStop.t :=
  DeliveryStop.mk "d2" "Delivery Point" 0 0.2 5 "09:00" "17:00" 10.

(** Two stops on the equator seen from (0,0): the farther one has
    priority 5, the closer one priority 1. *)
Definition far_discounted : DeliveryStop.t :=
  DeliveryStop.mk "a" "Delivery Point" 0 0.1 5 "09:00" "17:00" 15.
Definition close_plain : DeliveryStop.t :=
  DeliveryStop.mk "b" "Delivery Point" 0 0.08 1 "09:00" "17:00" 15.

(** Two vehicles submitted under one id, each standing on a stop. *)
Definition twin_west : Vehicle.t := Vehicle.mk "v" "Ann" 1000 0 0 50 60.
Definition twin_east : Vehicle.t := Vehicle.mk "v" "Bob" 1000 0 10 50 60.
Definition stop_west : DeliveryStop.t :=
  DeliveryStop.mk "w" "Delivery Point" 0 0 3 "09:00" "17:00" 15.
Definition stop_east : DeliveryStop.t :=
  DeliveryStop.mk "e" "Delivery Point" 0 10 3 "09:00" "17:00" 15.

(** A vehicle whose tank size was submitted as 0. *)
Definition no_tank : Vehicle.t := Vehicle.mk "v0" "Unknown" 1000 0 0 50 0.

(** A stop on the equator with the defaults of the handler. *)
Definition equator_stop (id : string) (longitude : R) : DeliveryStop.t :=
  DeliveryStop.mk id "Delivery Point" 0 longitude 3 "09:00" "17:00" 15.

(** Five stops about 33 km out, then one about 11 km out. *)
Definition crowded_pool : list DeliveryStop.t :=
  [equator_stop "p1" 0.3; equator_stop "p2" 0.3; equator_stop "p3" 0.3;
   equator_stop "p4" 0.3; equator_stop "p5" 0.3; equator_stop "p6" 0.1].

(** ** Further vocabulary *)

(** The term [a] of [calculate_distance], whose square root goes to
    [math.asin]. *)
Definition haversine (lat1 lon1 lat2 lon2 : R) : R :=
  (sin ((radians lat2 - radians lat1) / 2) ^ 2
   + cos (radians lat1) * cos (radians lat2)
     * sin ((radians lon2 - radians lon1) / 2) ^ 2)%R.




(** The nearest stop by raw distance, the first such in list order. *)
Definition first_nearest (current_lat current_lon : R)
    (unvisited : list DeliveryStop.t) (stop : DeliveryStop.t) : Prop :=
  ∃ before after,
    unvisited = before ++ stop :: after ∧
    (∀ other, other ∈ before →
       (raw_distance current_lat current_lon stop
        < raw_distance current_lat current_lon other)%R) ∧
    (∀ other, other ∈ after →
       (raw_distance current_lat current_lon stop
        <= raw_distance current_lat current_lon other)%R).

(** The sort key of a vehicle whose [max_fuel] is not 0. *)
Definition fuel_key (v : Vehicle.t) : R :=
  (Vehicle.fuel_level v / Vehicle.max_fuel v)%R.

Definition key_desc (p q : R * Vehicle.t) : Prop := (q.1 <= p.1)%R.

(** What every entry of the assignments dict looks like. *)
Definition route_record_ok (k : string) (r : RouteResult) : Prop :=
  route r ≠ [] ∧ length (route r) ≤ 5 ∧
  vehicle_id r = Some k ∧ stops_count r = Some (length (route r)).

(** The requests that reach [assign_routes]. *)
Definition is_run (req : Request) : bool :=
  match req with
  | POST_optimize (Payload _ _) => true
  | _ => false
  end.

Fixpoint count_runs (reqs : list Request) : nat :=
  match reqs with
  | [] => 0
  | req :: reqs' => (if is_run req then 1 else 0) + count_runs reqs'
  end.

Definition record_ok (rec : OptimizationRecord) : Prop :=
  (0 <= assignments_made rec <= Z.of_nat (total_deliveries rec))%Z ∧
  (0 <= efficiency_score rec <= 1)%R.

(** * Properties *)

(** ** The exception monad *)

Lemma comp_bind_Ret {A B} (a : A) (f : A → comp B) : Ret a ≫= f = f a.
Proof. reflexivity. Qed.

Lemma bind_Ret {A B} (f : A → comp B) (c : comp A) (b : B) :
  c ≫= f = Ret b → ∃ a, c = Ret a ∧ f a = Ret b.
Proof. destruct c; simpl; intros H; try discriminate. eauto. Qed.

Lemma list_remove_elem_of `{EqDecision A} (x : A) (l : list A) :
  x ∈ l → ∃ k, list_remove x l = Ret k ∧ l ≡ₚ x :: k.
Proof.
  induction l as [|y l IH]; intros Hin.
  - by apply not_elem_of_nil in Hin.
  - simpl. destruct (decide (y = x)) as [->|Hne].
    + eauto.
    + apply elem_of_cons in Hin as [->|Hin]; [done|].
      destruct (IH Hin) as (k & -> & Hp). simpl.
      exists (y :: k). split; [done|]. rewrite Hp. apply Permutation_swap.
Qed.

Lemma list_remove_Ret `{EqDecision A} (x : A) (l k : list A) :
  list_remove x l = Ret k → l ≡ₚ x :: k ∧ k `sublist_of` l.
Proof.
  revert k. induction l as [|y l IH]; intros k; simpl; [done|].
  destruct (decide (y = x)) as [->|Hne].
  - intros [= ->]. split; [done|]. by apply sublist_cons.
  - intros H. apply bind_Ret in H as (k' & Hk' & [= <-]).
    destruct (IH _ Hk') as [Hp Hs]. split.
    + rewrite Hp. apply Permutation_swap.
    + by apply sublist_skip.
Qed.

(** ** DistanceModel *)

Lemma radians_0 : radians 0 = 0%R.
Proof. unfold radians. lra. Qed.

Lemma calculate_distance_sym lat1 lon1 lat2 lon2 :
  calculate_distance lat1 lon1 lat2 lon2 = calculate_distance lat2 lon2 lat1 lon1.
Proof.
  unfold calculate_distance; cbv zeta.
  replace ((radians lat1 - radians lat2) / 2)%R
    with (- ((radians lat2 - radians lat1) / 2))%R by lra.
  replace ((radians lon1 - radians lon2) / 2)%R
    with (- ((radians lon2 - radians lon1) / 2))%R by lra.
  rewrite !sin_neg. do 4 f_equal; ring.
Qed.

Lemma calculate_distance_same lat lon :
  calculate_distance lat lon lat lon = 0%R.
Proof.
  unfold calculate_distance; cbv zeta.
  replace ((radians lat - radians lat) / 2)%R with 0%R by lra.
  replace ((radians lon - radians lon) / 2)%R with 0%R by lra.
  rewrite sin_0.
  replace (0 ^ 2 + cos (radians lat) * cos (radians lat) * 0 ^ 2)%R with 0%R by ring.
  rewrite sqrt_0, asin_0. ring.
Qed.

(** Along the equator the distance is the arc of the longitude difference. *)
Lemma calculate_distance_equator lon1 lon2 :
  (0 <= lon2 - lon1 <= 180)%R →
  calculate_distance 0 lon1 0 lon2 = (6371 * ((lon2 - lon1) * (PI / 180)))%R.
Proof.
  intros [Hlo Hhi]. pose proof PI_RGT_0 as Hpi.
  unfold calculate_distance; cbv zeta. rewrite radians_0.
  replace ((0 - 0) / 2)%R with 0%R by lra. rewrite sin_0, cos_0.
  set (h := ((radians lon2 - radians lon1) / 2)%R).
  assert (Hh : h = ((lon2 - lon1) * (PI / 360))%R) by (unfold h, radians; lra).
  assert (0 <= h <= PI / 2)%R as [Hh0 Hh1] by (rewrite Hh; split; nra).
  replace (0 ^ 2 + 1 * 1 * sin h ^ 2)%R with (sin h ^ 2)%R by ring.
  rewrite sqrt_pow2 by (apply sin_ge_0; lra).
  rewrite asin_sin by lra. rewrite Hh. lra.
Qed.

Lemma PI_gt_3 : (3 < PI)%R.
Proof. pose proof PI2_3_2. lra. Qed.

(** ** RouteBuilder *)

Lemma float_of_int_range n : float_range n → float_of_int n = Ret (IZR n).
Proof. intros. unfold float_of_int. by rewrite decide_True. Qed.

Lemma float_of_int_overflow n : ¬ float_range n → float_of_int n = Raise OverflowError.
Proof. intros. unfold float_of_int. by rewrite decide_False. Qed.

Lemma small_float_range n : (Z.abs n <= 10000000)%Z → float_range n.
Proof.
  unfold float_range, float_max_int. intros Hn.
  assert (10000000 < 2 ^ 1024 - 2 ^ 970)%Z by (vm_compute; reflexivity). lia.
Qed.

Lemma nearest_step_first la lo s :
  convertible_priority s →
  nearest_step la lo None s = Ret (Some (s, raw_distance la lo s)).
Proof.
  intros Hs. unfold nearest_step, priority_factor.
  by rewrite float_of_int_range.
Qed.

Lemma nearest_step_take la lo n nd s :
  convertible_priority s →
  (adjusted_distance la lo s < nd)%R →
  nearest_step la lo (Some (n, nd)) s = Ret (Some (s, raw_distance la lo s)).
Proof.
  intros Hs Hlt. unfold nearest_step, priority_factor.
  rewrite float_of_int_range by done. rewrite !comp_bind_Ret.
  by rewrite decide_True.
Qed.

Lemma nearest_step_keep la lo n nd s :
  convertible_priority s →
  ¬ (adjusted_distance la lo s < nd)%R →
  nearest_step la lo (Some (n, nd)) s = Ret (Some (n, nd)).
Proof.
  intros Hs Hge. unfold nearest_step, priority_factor.
  rewrite float_of_int_range by done. rewrite !comp_bind_Ret.
  by rewrite decide_False.
Qed.

Lemma nearest_step_overflow la lo nearest s :
  ¬ convertible_priority s → nearest_step la lo nearest s = Raise OverflowError.
Proof.
  intros Hs. unfold nearest_step, priority_factor.
  by rewrite float_of_int_overflow.
Qed.

(** Whatever stop the scan settles on, it is one of the stops scanned and
    the distance kept with it is its raw distance. *)
Lemma nearest_fold_spec la lo (l : list DeliveryStop.t) (acc : DeliveryStop.t * R) :
  Forall convertible_priority l →
  ∃ s d, for_each (nearest_step la lo) (Some acc) l = Ret (Some (s, d)) ∧
         ((s, d) = acc ∨ (s ∈ l ∧ d = raw_distance la lo s)).
Proof.
  intros Hall. revert acc. induction Hall as [|x l Hx _ IH]; intros [s0 d0]; simpl.
  - eauto.
  - destruct (decide (adjusted_distance la lo x < d0)%R) as [Hlt|Hge].
    + rewrite nearest_step_take, comp_bind_Ret by done.
      destruct (IH (x, raw_distance la lo x)) as (s & d & Hf & Hs).
      exists s, d. split; [exact Hf|]. right.
      destruct Hs as [[= -> ->]|[Hin ->]]; split; try done; by constructor.
    + rewrite nearest_step_keep, comp_bind_Ret by done.
      destruct (IH (s0, d0)) as (s & d & Hf & Hs).
      exists s, d. split; [exact Hf|].
      destruct Hs as [?|[Hin ->]]; [by left|right]. split; [by constructor|done].
Qed.

Lemma find_nearest_cons la lo x (l : list DeliveryStop.t) :
  Forall convertible_priority (x :: l) →
  ∃ s, find_nearest la lo (x :: l) = Ret (Some (s, raw_distance la lo s)) ∧ s ∈ x :: l.
Proof.
  intros [Hx Hl]%Forall_cons. unfold find_nearest; simpl.
  rewrite nearest_step_first, comp_bind_Ret by done.
  destruct (nearest_fold_spec la lo l (x, raw_distance la lo x) Hl) as (s & d & Hf & Hs).
  rewrite Hf.
  destruct Hs as [[= -> ->]|[Hin ->]]; eexists; split; try done; by constructor.
Qed.

(** One stop whose priority does not convert stops the scan. *)
Lemma for_each_nearest_overflow la lo (l : list DeliveryStop.t) :
  ∀ acc, Exists (λ s, ¬ convertible_priority s) l →
    for_each (nearest_step la lo) acc l = Raise OverflowError.
Proof.
  induction l as [|x l IH]; intros acc Hex.
  - by apply Exists_nil in Hex.
  - simpl. destruct (decide (convertible_priority x)) as [Hx|Hx].
    + apply Exists_cons in Hex as [?|Hex]; [done|].
      destruct acc as [[n nd]|].
      * destruct (decide (adjusted_distance la lo x < nd)%R).
        -- rewrite nearest_step_take, comp_bind_Ret by done. by apply IH.
        -- rewrite nearest_step_keep, comp_bind_Ret by done. by apply IH.
      * rewrite nearest_step_first, comp_bind_Ret by done. by apply IH.
    + by rewrite nearest_step_overflow.
Qed.

Lemma find_nearest_overflow la lo (l : list DeliveryStop.t) :
  Exists (λ s, ¬ convertible_priority s) l →
  find_nearest la lo l = Raise OverflowError.
Proof. apply for_each_nearest_overflow. Qed.

Lemma convertible_cases (l : list DeliveryStop.t) :
  Forall convertible_priority l ∨ Exists (λ s, ¬ convertible_priority s) l.
Proof.
  induction l as [|x l [IH|IH]].
  - left. constructor.
  - destruct (decide (convertible_priority x)).
    + left. by constructor.
    + right. by constructor.
  - right. by apply Exists_cons_tl.
Qed.

(** The loop finishes within [length unvisited] iterations and visits
    exactly the stops it was given. *)
Lemma route_loop_total fuel :
  ∀ la lo unvisited route total,
    length unvisited ≤ fuel →
    Forall convertible_priority unvisited →
    ∃ route' total',
      route_loop fuel la lo unvisited route total = Ret (route', total') ∧
      route' ≡ₚ route ++ unvisited.
Proof.
  induction fuel as [|fuel IH]; intros la lo unvisited route total Hlen Hall.
  - destruct unvisited; simpl in *; [|lia].
    exists route, total. by rewrite app_nil_r.
  - destruct unvisited as [|x l].
    { exists route, total. by rewrite app_nil_r. }
    cbn [route_loop].
    destruct (find_nearest_cons la lo x l Hall) as (s & -> & Hin).
    rewrite comp_bind_Ret.
    destruct (list_remove_elem_of s (x :: l) Hin) as (k & Hk & Hp).
    rewrite Hk, comp_bind_Ret.
    destruct (IH (DeliveryStop.latitude s) (DeliveryStop.longitude s) k
                (route ++ [s]) (total + raw_distance la lo s)%R)
      as (route' & total' & -> & Hr).
    { apply Permutation_length in Hp. simpl in *. lia. }
    { apply list_remove_Ret in Hk as [_ Hsub].
      apply Forall_forall. intros y Hy. rewrite Forall_forall in Hall.
      apply Hall. by eapply elem_of_sublist. }
    exists route', total'. split; [done|].
    rewrite Hr, Hp, <-app_assoc. done.
Qed.

Lemma route_loop_overflow fuel la lo unvisited route total :
  Exists (λ s, ¬ convertible_priority s) unvisited →
  route_loop (S fuel) la lo unvisited route total = Raise OverflowError.
Proof.
  intros Hex. destruct unvisited as [|x l]; [by apply Exists_nil in Hex|].
  cbn [route_loop]. by rewrite find_nearest_overflow.
Qed.

(** More iterations allowed change nothing once the loop has finished. *)
Lemma route_loop_fuel_mono fuel :
  ∀ fuel' la lo unvisited route total res,
    fuel ≤ fuel' →
    route_loop fuel la lo unvisited route total = Ret res →
    route_loop fuel' la lo unvisited route total = Ret res.
Proof.
  induction fuel as [|fuel IH]; intros fuel' la lo unvisited route total res Hle.
  - destruct unvisited; simpl; [|done]. by destruct fuel'.
  - destruct fuel' as [|fuel']; [lia|].
    destruct unvisited as [|x l]; [done|]. cbn [route_loop].
    destruct (find_nearest la lo (x :: l)) as [[[s d]|]| |]; try done;
      rewrite !comp_bind_Ret.
    + destruct (list_remove s (x :: l)) as [k| |]; try done.
      rewrite !comp_bind_Ret. apply IH. lia.
    + apply IH. lia.
Qed.

Lemma total_service_time_sum stops : total_service_time stops = sum_durations stops.
Proof.
  unfold total_service_time.
  assert (∀ acc, foldl (λ acc stop, acc + DeliveryStop.estimated_duration stop)%Z acc stops
                 = (acc + sum_durations stops)%Z) as H.
  { induction stops as [|s stops IH]; intros acc; simpl; [lia|]. rewrite IH. lia. }
  rewrite H. lia.
Qed.

Lemma sum_durations_perm l k : l ≡ₚ k → sum_durations l = sum_durations k.
Proof. induction 1; simpl; lia. Qed.

(** The route builder fails exactly on a non-empty stop list that is not
    [buildable], and then with [OverflowError]. *)
Lemma optimize_route_total stops vehicle :
  ∃ d, optimize_route stops vehicle = Ret d ∧
       match d with
       | RouteOk r =>
           (stops = [] ∨ buildable stops) ∧ route r ≡ₚ stops ∧
           (stops ≠ [] → vehicle_id r = Some (Vehicle.id vehicle))
       | RouteError e => e = OverflowError ∧ stops ≠ [] ∧ ¬ buildable stops
       end.
Proof.
  unfold optimize_route. destruct stops as [|x l].
  - eexists; split; [reflexivity|]. split_and!; [by left|done..].
  - destruct (convertible_cases (x :: l)) as [Hall|Hex].
    + destruct (route_loop_total (length (x :: l))
                  (Vehicle.current_lat vehicle) (Vehicle.current_lon vehicle)
                  (x :: l) [] 0%R) as (route' & total' & -> & Hp); [done|done|].
      rewrite comp_bind_Ret. cbn beta iota.
      rewrite total_service_time_sum, (sum_durations_perm _ _ Hp). simpl app.
      destruct (decide (float_range (sum_durations (x :: l)))) as [Hsum|Hsum].
      * rewrite float_of_int_range by done. rewrite comp_bind_Ret. simpl.
        eexists; split; [reflexivity|]. split_and!; [by right|done..].
      * rewrite float_of_int_overflow by done. simpl.
        eexists; split; [reflexivity|]. split_and!; [done|done|]. by intros [_ ?].
    + cbn [length]. rewrite route_loop_overflow by done. simpl.
      eexists; split; [reflexivity|]. split_and!; [done|done|].
      intros [Hall _]. apply Exists_exists in Hex as (s & Hs & Hbad).
      rewrite Forall_forall in Hall. by apply Hbad, Hall.
Qed.

Lemma optimize_route_buildable stops vehicle :
  buildable stops →
  ∃ r, optimize_route stops vehicle = Ret (RouteOk r) ∧
       route r ≡ₚ stops ∧
       (stops ≠ [] → vehicle_id r = Some (Vehicle.id vehicle)).
Proof.
  intros Hb. destruct (optimize_route_total stops vehicle) as ([r|e] & Hrun & Hd).
  - destruct Hd as (_ & Hp & Hid). eauto.
  - by destruct Hd as (_ & _ & ?).
Qed.

Lemma optimize_route_Ok stops vehicle r :
  optimize_route stops vehicle = Ret (RouteOk r) →
  route r ≡ₚ stops ∧
  (stops ≠ [] → vehicle_id r = Some (Vehicle.id vehicle) ∧ buildable stops).
Proof.
  intros Hr. destruct (optimize_route_total stops vehicle) as (d & Hrun & Hd).
  rewrite Hr in Hrun. injection Hrun as <-. destruct Hd as (Hb & Hp & Hid).
  split; [done|]. intros Hne. split; [by apply Hid|]. by destruct Hb.
Qed.

(** ** AssignmentEngine *)

Lemma for_each_remove_total (suitable pool : list DeliveryStop.t) :
  suitable ⊆+ pool →
  ∃ pool', remove_each suitable pool = Ret pool' ∧
           pool ≡ₚ suitable ++ pool' ∧ pool' `sublist_of` pool.
Proof.
  unfold remove_each. revert pool.
  induction suitable as [|x s IH]; intros pool Hsub; simpl.
  - by exists pool.
  - assert (x ∈ pool) as Hin.
    { eapply elem_of_submseteq; [|exact Hsub]. set_solver. }
    destruct (list_remove_elem_of x pool Hin) as (k & Hk & Hp).
    rewrite Hk; cbn.
    destruct (list_remove_Ret _ _ _ Hk) as [_ Hks].
    destruct (IH k) as (pool' & -> & Hp' & Hs').
    { rewrite Hp in Hsub. by apply (submseteq_app_inv_l _ _ [x]). }
    exists pool'. split; [done|]. split.
    + by rewrite Hp, Hp'.
    + by etrans.
Qed.

(** The scan of the pool collects the first five qualifying stops. *)
Lemma foldl_suitable_step vehicle (pool acc : list DeliveryStop.t) :
  foldl (suitable_step vehicle) acc pool
  = acc ++ take (5 - length acc) (filter (near vehicle) pool).
Proof.
  revert acc. induction pool as [|x pool IH]; intros acc; simpl.
  - rewrite filter_nil, take_nil, app_nil_r. done.
  - rewrite IH. unfold suitable_step. fold (raw_distance
      (Vehicle.current_lat vehicle) (Vehicle.current_lon vehicle) x).
    destruct (decide _) as [[Hlen Hnear]|Hno].
    + rewrite filter_cons_True by exact Hnear.
      rewrite length_app; simpl.
      replace (5 - length acc) with (S (5 - (length acc + 1))) by lia.
      simpl. by rewrite <-app_assoc.
    + destruct (decide (near vehicle x)) as [Hnear|Hfar].
      * assert (¬ length acc < 5) by (intros ?; by apply Hno).
        assert (5 - length acc = 0) as -> by lia.
        by rewrite !take_0.
      * by rewrite filter_cons_False.
Qed.

Lemma find_suitable_candidates vehicle pool :
  find_suitable vehicle pool = candidates vehicle pool.
Proof. unfold find_suitable. by rewrite foldl_suitable_step. Qed.

Lemma candidates_sublist vehicle pool : candidates vehicle pool `sublist_of` pool.
Proof.
  unfold candidates. etrans; [apply sublist_take|]. apply sublist_filter.
Qed.

Lemma candidates_length vehicle pool : length (candidates vehicle pool) ≤ 5.
Proof. unfold candidates. rewrite length_take. lia. Qed.

Lemma candidates_near vehicle pool : Forall (near vehicle) (candidates vehicle pool).
Proof.
  unfold candidates. apply Forall_take, Forall_forall.
  intros x Hx. by apply list_elem_of_filter in Hx as [? _].
Qed.

Lemma fuel_ratio_nonzero v :
  Vehicle.max_fuel v ≠ 0%R →
  fuel_ratio v = Ret (Vehicle.fuel_level v / Vehicle.max_fuel v)%R.
Proof. intros. unfold fuel_ratio. by rewrite decide_False. Qed.

Lemma fuel_ratio_zero v :
  Vehicle.max_fuel v = 0%R → fuel_ratio v = Raise ZeroDivisionError.
Proof. intros. unfold fuel_ratio. by rewrite decide_True. Qed.

Lemma mapM_fuel_ratio_Ret (vehicles : list Vehicle.t) :
  Forall (λ v, Vehicle.max_fuel v ≠ 0%R) vehicles →
  ∃ keys, mapM fuel_ratio vehicles = Ret keys ∧ length keys = length vehicles.
Proof.
  induction 1 as [|v vs Hv _ (keys & IH & Hlen)]; simpl.
  - by exists [].
  - rewrite fuel_ratio_nonzero by done. cbn.
    rewrite IH. cbn. eexists; split; [reflexivity|]. simpl. by rewrite Hlen.
Qed.

Lemma mapM_fuel_ratio_Raise (vehicles : list Vehicle.t) :
  Exists (λ v, Vehicle.max_fuel v = 0%R) vehicles →
  mapM fuel_ratio vehicles = Raise ZeroDivisionError.
Proof.
  induction vehicles as [|v vs IH]; intros Hex.
  - by apply Exists_nil in Hex.
  - simpl. destruct (decide (Vehicle.max_fuel v = 0%R)) as [Hz|Hne].
    + by rewrite fuel_ratio_zero.
    + rewrite fuel_ratio_nonzero by done. cbn.
      apply Exists_cons in Hex as [?|Hex]; [done|]. by rewrite IH.
Qed.

Lemma insert_desc_perm kv l : insert_desc kv l ≡ₚ kv :: l.
Proof.
  induction l as [|y l IH]; simpl; [done|].
  destruct (decide _); [|done]. rewrite IH. apply Permutation_swap.
Qed.

Lemma sort_desc_perm l : sort_desc l ≡ₚ l.
Proof.
  induction l as [|kv l IH]; simpl; [done|].
  rewrite insert_desc_perm. by rewrite IH.
Qed.

Lemma sorted_by_fuel_total (vehicles : list Vehicle.t) :
  Forall (λ v, Vehicle.max_fuel v ≠ 0%R) vehicles →
  ∃ vs, sorted_by_fuel vehicles = Ret vs ∧ vs ≡ₚ vehicles.
Proof.
  intros Hnz. destruct (mapM_fuel_ratio_Ret _ Hnz) as (keys & Hk & Hlen).
  unfold sorted_by_fuel. rewrite Hk. cbn.
  eexists; split; [reflexivity|].
  rewrite sort_desc_perm. rewrite snd_zip by lia. done.
Qed.

Lemma sorted_by_fuel_zero (vehicles : list Vehicle.t) :
  Exists (λ v, Vehicle.max_fuel v = 0%R) vehicles →
  sorted_by_fuel vehicles = Raise ZeroDivisionError.
Proof.
  intros Hex. unfold sorted_by_fuel. by rewrite mapM_fuel_ratio_Raise.
Qed.

Lemma max_fuel_cases (vehicles : list Vehicle.t) :
  Forall (λ v, Vehicle.max_fuel v ≠ 0%R) vehicles ∨
  Exists (λ v, Vehicle.max_fuel v = 0%R) vehicles.
Proof.
  induction vehicles as [|v vs [IH|IH]].
  - left. constructor.
  - destruct (decide (Vehicle.max_fuel v = 0%R)).
    + right. by constructor.
    + left. by constructor.
  - right. by apply Exists_cons_tl.
Qed.

(** The vehicle loop always finishes, and carries any invariant that
    survives skipping a vehicle and recording a route for one. *)
Section assign_loop_invariant.
Variable Inv : list Vehicle.t → gmap string RouteResult → list DeliveryStop.t → Prop.
Hypothesis Inv_skip : ∀ v rest asg un, Inv (v :: rest) asg un → Inv rest asg un.
Hypothesis Inv_record : ∀ v rest asg un r un',
  Inv (v :: rest) asg un →
  candidates v un ≠ [] →
  route r ≡ₚ candidates v un →
  vehicle_id r = Some (Vehicle.id v) →
  un ≡ₚ candidates v un ++ un' →
  un' `sublist_of` un →
  Inv rest (<[Vehicle.id v := r]> asg) un'.

Lemma assign_loop_inv vs :
  ∀ asg un, Inv vs asg un →
    ∃ asg' un' rest, assign_loop vs asg un = Ret (asg', un') ∧ Inv rest asg' un'.
Proof using Inv_skip Inv_record.
  induction vs as [|v rest IH]; intros asg un HI; simpl.
  - by exists asg, un, [].
  - destruct un as [|d un0].
    { by exists asg, [], (v :: rest). }
    set (un := d :: un0) in *.
    rewrite find_suitable_candidates.
    destruct (candidates v un) as [|c cs] eqn:Hc.
    { apply IH. by eapply Inv_skip. }
    rewrite <-Hc.
    destruct (optimize_route_total (candidates v un) v)
      as ([r|e] & -> & Hd); rewrite comp_bind_Ret.
    { destruct Hd as (_ & Hr & Hid).
      destruct (for_each_remove_total (candidates v un) un) as (un' & -> & Hp & Hs).
      { apply sublist_submseteq, candidates_sublist. }
      rewrite comp_bind_Ret. apply IH. eapply Inv_record; eauto.
      + by rewrite Hc.
      + apply Hid. by rewrite Hc. }
    apply IH. by eapply Inv_skip.
Qed.
End assign_loop_invariant.

Lemma assigned_stops_insert (asg : gmap string RouteResult) k r :
  asg !! k = None →
  assigned_stops (<[k := r]> asg) ≡ₚ route r ++ assigned_stops asg.
Proof.
  intros Hk. unfold assigned_stops.
  rewrite (map_to_list_insert asg k r Hk). done.
Qed.

Lemma assigned_stops_lookup (asg : gmap string RouteResult) k r :
  asg !! k = Some r →
  assigned_stops asg ≡ₚ route r ++ assigned_stops (delete k asg).
Proof.
  intros Hk. rewrite <-(insert_delete_id asg k r Hk) at 1.
  apply assigned_stops_insert, lookup_delete_eq.
Qed.

Lemma assigned_stops_elem_of (asg : gmap string RouteResult) k r x :
  asg !! k = Some r → x ∈ route r → x ∈ assigned_stops asg.
Proof.
  intros Hk Hx. rewrite (assigned_stops_lookup asg k r Hk). set_solver.
Qed.

(** With distinct vehicle ids nothing is lost: every recorded route sits
    under its own key. *)
Lemma assign_loop_partition deliveries vs :
  NoDup (Vehicle.id <$> vs) →
  ∃ asg un, assign_loop vs ∅ deliveries = Ret (asg, un) ∧
            assigned_stops asg ++ un ≡ₚ deliveries.
Proof.
  intros Hnd.
  set (Inv := λ (rest : list Vehicle.t) (asg : gmap string RouteResult)
                (un : list DeliveryStop.t),
         NoDup (Vehicle.id <$> rest) ∧
         (∀ v, v ∈ rest → asg !! Vehicle.id v = None) ∧
         assigned_stops asg ++ un ≡ₚ deliveries).
  destruct (assign_loop_inv Inv) with (vs := vs) (asg := (∅ : gmap string RouteResult))
    (un := deliveries) as (asg & un & rest & Hrun & _ & _ & Hp).
  - intros v rest asg un (Hnd' & Hfresh & Hp). split_and!.
    + by apply NoDup_cons in Hnd' as [_ ?].
    + intros v' Hv'. apply Hfresh. by right.
    + done.
  - intros v rest asg un r un' (Hnd' & Hfresh & Hp) _ Hr _ Hun _.
    rewrite fmap_cons in Hnd'. apply NoDup_cons in Hnd' as [Hv Hnd'].
    split_and!.
    + done.
    + intros v' Hv'. rewrite lookup_insert_ne.
      * apply Hfresh. by right.
      * intros Heq. apply Hv. rewrite Heq. by apply list_elem_of_fmap_2.
    + rewrite assigned_stops_insert by (apply Hfresh; by left).
      rewrite <-Hp, Hun, Hr.
      rewrite <-!app_assoc. apply Permutation_app_swap_app.
  - split_and!; [done| |done]. intros v _. apply lookup_empty.
  - eauto.
Qed.

(** Every recorded route was computed for a vehicle of that id from the
    first five qualifying stops of the pool left at that point. *)
Lemma assign_loop_entries deliveries vehicles vs :
  vs ⊆ vehicles →
  ∃ asg un, assign_loop vs ∅ deliveries = Ret (asg, un) ∧
    ∀ k rr, asg !! k = Some rr →
      ∃ v pool, v ∈ vehicles ∧ Vehicle.id v = k ∧ vehicle_id rr = Some k ∧
                pool `sublist_of` deliveries ∧ route rr ≡ₚ candidates v pool.
Proof.
  intros Hsub.
  set (P := λ (k : string) (rr : RouteResult),
         ∃ v pool, v ∈ vehicles ∧ Vehicle.id v = k ∧ vehicle_id rr = Some k ∧
                   pool `sublist_of` deliveries ∧ route rr ≡ₚ candidates v pool).
  set (Inv := λ (rest : list Vehicle.t) (asg : gmap string RouteResult)
                (un : list DeliveryStop.t),
         rest ⊆ vehicles ∧ un `sublist_of` deliveries ∧ map_Forall P asg).
  destruct (assign_loop_inv Inv) with (vs := vs) (asg := (∅ : gmap string RouteResult))
    (un := deliveries) as (asg & un & rest & Hrun & _ & _ & HP).
  - intros v rest asg un (Hin & Hun & HP). split_and!; [set_solver|done|done].
  - intros v rest asg un r un' (Hin & Hun & HP) _ Hr Hid _ Hs.
    split_and!; [set_solver|by etrans|].
    apply map_Forall_insert_2; [|done].
    exists v, un. split_and!; [set_solver|done..].
  - split_and!; [done|done|]. apply map_Forall_empty.
  - exists asg, un. split; [done|]. intros k rr Hk. by apply HP.
Qed.

(** ** FuelFeasibilityEvaluator *)

Lemma calculate_fuel_efficiency_nonzero vehicle distance :
  Vehicle.max_fuel vehicle ≠ 0%R →
  calculate_fuel_efficiency vehicle distance =
    Ret (FuelOk (mkFuelResult (Vehicle.id vehicle) distance (distance * 0.08)
           (Vehicle.fuel_level vehicle) (Vehicle.max_fuel vehicle)
           (Rmax 0 (distance * 0.08 - Vehicle.fuel_level vehicle))
           (Vehicle.fuel_level vehicle / Vehicle.max_fuel vehicle * 100)
           (bool_decide (Rmax 0 (distance * 0.08 - Vehicle.fuel_level vehicle) > 5)%R))).
Proof.
  intros Hnz. unfold calculate_fuel_efficiency, fuel_percentage_of.
  by rewrite fuel_ratio_nonzero.
Qed.

Lemma calculate_fuel_efficiency_zero vehicle distance :
  Vehicle.max_fuel vehicle = 0%R →
  calculate_fuel_efficiency vehicle distance = Ret (FuelError ZeroDivisionError).
Proof.
  intros Hz. unfold calculate_fuel_efficiency, fuel_percentage_of.
  by rewrite fuel_ratio_zero.
Qed.

(** ** RecommendationEngine *)

Lemma fuel_check_nonzero recs vehicle :
  Vehicle.max_fuel vehicle ≠ 0%R →
  fuel_check recs vehicle = Ret (recs ++ vehicle_recommendations vehicle).
Proof.
  intros Hnz. unfold fuel_check, fuel_percentage_of, vehicle_recommendations.
  rewrite fuel_ratio_nonzero by done. rewrite !comp_bind_Ret. fold (ratio vehicle).
  repeat case_decide; by rewrite ?app_nil_r.
Qed.

Lemma for_each_fuel_check vehicles :
  ∀ recs, Forall (λ v, Vehicle.max_fuel v ≠ 0%R) vehicles →
    for_each fuel_check recs vehicles
    = Ret (recs ++ mjoin (vehicle_recommendations <$> vehicles)).
Proof.
  induction vehicles as [|v vs IH]; intros recs Hnz; simpl.
  - by rewrite app_nil_r.
  - apply Forall_cons in Hnz as [Hv Hvs].
    rewrite fuel_check_nonzero by done. rewrite comp_bind_Ret.
    rewrite IH by done. by rewrite <-app_assoc.
Qed.

Lemma for_each_fuel_check_zero vehicles :
  ∀ recs, Exists (λ v, Vehicle.max_fuel v = 0%R) vehicles →
    for_each fuel_check recs vehicles = Raise ZeroDivisionError.
Proof.
  induction vehicles as [|v vs IH]; intros recs Hex.
  - by apply Exists_nil in Hex.
  - simpl. destruct (decide (Vehicle.max_fuel v = 0%R)) as [Hz|Hnz].
    + unfold fuel_check, fuel_percentage_of. by rewrite fuel_ratio_zero.
    + rewrite fuel_check_nonzero by done. rewrite comp_bind_Ret.
      apply IH. by apply Exists_cons in Hex as [?|?].
Qed.

Lemma slice_from_last5 {A} (l : list A) :
  5 < length l → slice_from (-5) l = drop (length l - 5) l.
Proof.
  intros Hlen. unfold slice_from. rewrite decide_True by lia.
  f_equal. lia.
Qed.

Lemma efficiency_check_spec recs history :
  efficiency_check recs history = Ret (recs ++ ledger_recommendations history).
Proof.
  unfold efficiency_check, ledger_recommendations, recent_mean.
  destruct (decide (5 < length history)) as [Hlen|Hlen]; [|by rewrite app_nil_r].
  rewrite slice_from_last5 by done.
  assert (length (drop (length history - 5) history) = 5) as Hfive
    by (rewrite length_drop; lia).
  rewrite Hfive. rewrite decide_False by done.
  replace (INR 5) with 5%R by (simpl; lra).
  case_decide; by rewrite ?app_nil_r.
Qed.

Lemma get_optimization_recommendations_nonzero self :
  Forall (λ v, Vehicle.max_fuel v ≠ 0%R) (FleetOptimizerService.vehicles self) →
  get_optimization_recommendations self =
    Ret (mjoin (vehicle_recommendations <$> FleetOptimizerService.vehicles self)
         ++ ledger_recommendations (FleetOptimizerService.optimization_history self)).
Proof.
  intros Hnz. unfold get_optimization_recommendations.
  rewrite for_each_fuel_check by done. rewrite comp_bind_Ret.
  by rewrite efficiency_check_spec.
Qed.

Lemma get_optimization_recommendations_zero self :
  Exists (λ v, Vehicle.max_fuel v = 0%R) (FleetOptimizerService.vehicles self) →
  get_optimization_recommendations self = Ret [].
Proof.
  intros Hex. unfold get_optimization_recommendations.
  by rewrite for_each_fuel_check_zero.
Qed.

Lemma foldl_sum_const (c : R) (l : list OptimizationRecord) :
  ∀ acc, Forall (λ opt, efficiency_score opt = c) l →
    foldl (λ acc opt, acc + efficiency_score opt)%R acc l
    = (acc + INR (length l) * c)%R.
Proof.
  induction l as [|opt l IH]; intros acc Hall.
  - simpl. lra.
  - apply Forall_cons in Hall as [Hc Hall].
    cbn [foldl]. rewrite IH by done. rewrite Hc.
    change (length (opt :: l)) with (S (length l)). rewrite S_INR. lra.
Qed.

Lemma recent_mean_const (c : R) (history : list OptimizationRecord) :
  5 < length history →
  Forall (λ opt, efficiency_score opt = c) history →
  recent_mean history = c.
Proof.
  intros Hlen Hall. unfold recent_mean, sum_efficiency.
  rewrite (foldl_sum_const c) by (by apply Forall_drop).
  rewrite length_drop.
  replace (length history - (length history - 5)) with 5 by lia.
  simpl. lra.
Qed.

Lemma vehicle_recommendations_fuel vehicle :
  Forall is_fuel_recommendation (vehicle_recommendations vehicle).
Proof.
  unfold vehicle_recommendations. repeat case_decide; repeat constructor.
Qed.

Lemma ledger_recommendations_efficiency history :
  Forall is_efficiency_improvement (ledger_recommendations history).
Proof.
  unfold ledger_recommendations. repeat case_decide; repeat constructor.
Qed.

(** ** Results on the written specification *)

(** C9. The distance function is symmetric in its two points and is
    exactly 0 when both points are the same. *)
Theorem calculate_distance_symmetric_zero :
  (∀ lat1 lon1 lat2 lon2,
     calculate_distance lat1 lon1 lat2 lon2 = calculate_distance lat2 lon2 lat1 lon1) ∧
  (∀ lat lon, calculate_distance lat lon lat lon = 0%R).
Proof. split; [apply calculate_distance_sym|apply calculate_distance_same]. Qed.

(** C7, as stated, fails: for a vehicle whose [max_fuel] is 0 the
    percentage computed for the same dict divides by zero, and the
    evaluator returns the error dict instead of a feasibility record. *)
Lemma evaluates_fails_on_zero_max_fuel :
  (0 <= 100)%R ∧
  ¬ evaluates (Vehicle.mk "v1" "Unknown" 1000 0 0 50 0) 100.
Proof.
  split; [lra|]. intros (r & Hr & _).
  by rewrite calculate_fuel_efficiency_zero in Hr.
Qed.

(** C7, amended. For every vehicle whose [max_fuel] is not 0 and every
    route distance, [calculate_fuel_efficiency] returns
    consumption = distance * 0.08, deficit = max(0, consumption - fuel_level)
    and needs_refuel true exactly when deficit > 5; and for a fixed vehicle
    the deficit does not decrease when the distance grows: at every
    distance that is at least as long the evaluator returns a record as
    well, whose deficit is at least as large.  For a vehicle whose
    [max_fuel] is 0 it returns the error dict, at every distance. *)
Theorem calculate_fuel_efficiency_spec vehicle distance :
  (Vehicle.max_fuel vehicle ≠ 0%R →
   evaluates vehicle distance ∧
   ∀ distance',
     (distance <= distance')%R →
     ∃ r r',
       calculate_fuel_efficiency vehicle distance = Ret (FuelOk r) ∧
       calculate_fuel_efficiency vehicle distance' = Ret (FuelOk r') ∧
       (fuel_deficit r <= fuel_deficit r')%R) ∧
  (Vehicle.max_fuel vehicle = 0%R →
   calculate_fuel_efficiency vehicle distance = Ret (FuelError ZeroDivisionError)).
Proof.
  split.
  - intros Hnz. split.
    + eexists. split; [by apply calculate_fuel_efficiency_nonzero|].
      split_and!; simpl; [done|done|]. by rewrite bool_decide_eq_true.
    + intros distance' Hle. eexists _, _.
      rewrite !calculate_fuel_efficiency_nonzero by done.
      split_and!; [reflexivity..|]. simpl.
      apply Rle_max_compat_l. lra.
  - intros Hz. unfold calculate_fuel_efficiency, fuel_percentage_of.
    by rewrite fuel_ratio_zero.
Qed.

Lemma calculate_fuel_efficiency_spec_witness :
  Vehicle.max_fuel (Vehicle.mk "v1" "Unknown" 1000 0 0 50 60) ≠ 0%R ∧
  evaluates (Vehicle.mk "v1" "Unknown" 1000 0 0 50 60) 700 ∧
  Vehicle.max_fuel (Vehicle.mk "v1" "Unknown" 1000 0 0 50 0) = 0%R ∧
  calculate_fuel_efficiency (Vehicle.mk "v1" "Unknown" 1000 0 0 50 0) 700
  = Ret (FuelError ZeroDivisionError).
Proof.
  assert (Vehicle.max_fuel (Vehicle.mk "v1" "Unknown" 1000 0 0 50 60) ≠ 0%R) as Hnz
    by (simpl; lra).
  assert (Vehicle.max_fuel (Vehicle.mk "v1" "Unknown" 1000 0 0 50 0) = 0%R) as Hz
    by reflexivity.
  split; [exact Hnz|].
  split; [exact (proj1 (proj1 (calculate_fuel_efficiency_spec _ 700) Hnz))|].
  split; [exact Hz|].
  exact (proj2 (calculate_fuel_efficiency_spec _ 700) Hz).
Defined.

Lemma elem_of_vehicle_recommendations r v :
  r ∈ vehicle_recommendations v ↔
  (r = fuel_alert (Vehicle.id v) (Vehicle.driver_name v) (ratio v) ∧ (ratio v < 20)%R) ∨
  (r = fuel_warning (Vehicle.id v) (Vehicle.driver_name v) (ratio v)
     ∧ (20 <= ratio v < 40)%R).
Proof.
  unfold vehicle_recommendations. repeat case_decide.
  - rewrite list_elem_of_singleton. split; [by left|]. intros [[? _]|[_ ?]]; [done|lra].
  - rewrite list_elem_of_singleton. split; [right; split; [done|lra]|].
    intros [[_ ?]|[? _]]; [lra|done].
  - split; [by intros ?%not_elem_of_nil|]. intros [[_ ?]|[_ ?]]; lra.
Qed.

(** C8, as stated, fails: a vehicle whose [max_fuel] is 0 anywhere in the
    fleet state makes the percentage of that vehicle divide by zero; the
    handler of the function then returns the empty list, so a vehicle at
    under 20 percent gets no alert. *)
Lemma fuel_alert_lost_on_zero_max_fuel :
  let low := Vehicle.mk "v1" "Ann" 1000 0 0 6 60 in
  let broken := Vehicle.mk "v2" "Bob" 1000 0 0 50 0 in
  (ratio low < 20)%R ∧
  ¬ ∃ recs,
      get_optimization_recommendations
        (FleetOptimizerService.mk [low; broken] [] [] []) = Ret recs ∧
      fuel_rule recs low.
Proof.
  intros low broken.
  assert (ratio low < 20)%R as Hlow by (unfold ratio, low; simpl; lra).
  split; [exact Hlow|]. intros (recs & Hrecs & Halert & _).
  rewrite get_optimization_recommendations_zero in Hrecs.
  - injection Hrecs as <-. apply Halert in Hlow. by apply not_elem_of_nil in Hlow.
  - simpl. apply Exists_cons_tl, Exists_cons_hd. done.
Qed.

(** C8, amended. When no vehicle of the fleet state has [max_fuel] 0, the
    recommendations are the vehicle-level entries in vehicle order,
    followed by the ledger-derived entry if any; and for every vehicle the
    output holds its fuel_alert exactly when ratio < 20, its fuel_warning
    exactly when 20 <= ratio < 40, and neither when ratio >= 40. *)
Theorem recommendations_fuel_bands self :
  Forall (λ v, Vehicle.max_fuel v ≠ 0%R) (FleetOptimizerService.vehicles self) →
  ∃ recs,
    get_optimization_recommendations self = Ret recs ∧
    recs = mjoin (vehicle_recommendations <$> FleetOptimizerService.vehicles self)
           ++ ledger_recommendations (FleetOptimizerService.optimization_history self) ∧
    Forall is_efficiency_improvement
      (ledger_recommendations (FleetOptimizerService.optimization_history self)) ∧
    ∀ v, v ∈ FleetOptimizerService.vehicles self →
      fuel_rule recs v ∧
      (vehicle_recommendations v = [] ↔ (ratio v >= 40)%R).
Proof.
  intros Hnz. eexists. split; [by apply get_optimization_recommendations_nonzero|].
  split; [done|]. split; [apply ledger_recommendations_efficiency|].
  intros v Hv.
  assert (∀ r, is_fuel_recommendation r →
            r ∈ vehicle_recommendations v →
            r ∈ mjoin (vehicle_recommendations <$> FleetOptimizerService.vehicles self)
                ++ ledger_recommendations
                     (FleetOptimizerService.optimization_history self)) as Hin.
  { intros r _ Hr. apply elem_of_app. left. apply list_elem_of_join.
    exists (vehicle_recommendations v). split; [done|]. by apply list_elem_of_fmap_2. }
  split; [split|].
  - split.
    + intros Hr. apply elem_of_app in Hr as [Hr|Hr].
      * apply list_elem_of_join in Hr as (l & Hr & Hl).
        apply list_elem_of_fmap in Hl as (v' & -> & _).
        apply elem_of_vehicle_recommendations in Hr as [[[= _ _ ->] ?]|[? _]]; done.
      * pose proof (ledger_recommendations_efficiency
                      (FleetOptimizerService.optimization_history self)) as Hl.
        rewrite Forall_forall in Hl. by apply Hl in Hr.
    + intros Hlt. apply Hin; [done|].
      apply elem_of_vehicle_recommendations. by left.
  - split.
    + intros Hr. apply elem_of_app in Hr as [Hr|Hr].
      * apply list_elem_of_join in Hr as (l & Hr & Hl).
        apply list_elem_of_fmap in Hl as (v' & -> & _).
        apply elem_of_vehicle_recommendations in Hr as [[? _]|[[= _ _ ->] ?]]; done.
      * pose proof (ledger_recommendations_efficiency
                      (FleetOptimizerService.optimization_history self)) as Hl.
        rewrite Forall_forall in Hl. by apply Hl in Hr.
    + intros Hlt. apply Hin; [done|].
      apply elem_of_vehicle_recommendations. by right.
  - unfold vehicle_recommendations. repeat case_decide; split; try done; lra.
Qed.

Lemma recommendations_fuel_bands_witness :
  let low := Vehicle.mk "v1" "Ann" 1000 0 0 6 60 in
  let mid := Vehicle.mk "v2" "Bob" 1000 0 0 18 60 in
  let full := Vehicle.mk "v3" "Cid" 1000 0 0 50 60 in
  Forall (λ v, Vehicle.max_fuel v ≠ 0%R) [low; mid; full] ∧
  ∃ recs,
    get_optimization_recommendations
      (FleetOptimizerService.mk [low; mid; full] [] [] []) = Ret recs ∧
    recs = mjoin (vehicle_recommendations <$> [low; mid; full])
           ++ ledger_recommendations [].
Proof.
  intros low mid full.
  assert (Forall (λ v, Vehicle.max_fuel v ≠ 0%R) [low; mid; full]) as Hnz
    by (repeat constructor; simpl; lra).
  split; [exact Hnz|].
  destruct (recommendations_fuel_bands
              (FleetOptimizerService.mk [low; mid; full] [] [] []) Hnz)
    as (recs & Hrun & Heq & _).
  exists recs. split; [exact Hrun|exact Heq].
Defined.

Lemma efficiency_entries_fuel recs :
  Forall is_fuel_recommendation recs → efficiency_entries recs = [].
Proof.
  unfold efficiency_entries. induction 1 as [|r recs Hr _ IH]; [done|].
  rewrite filter_cons_False; [done|]. destruct r; simpl in *; tauto.
Qed.

Lemma efficiency_entries_ledger history :
  efficiency_entries (ledger_recommendations history) = ledger_recommendations history.
Proof.
  unfold efficiency_entries, ledger_recommendations.
  repeat case_decide; done.
Qed.

Lemma efficiency_entries_recommendations self :
  Forall (λ v, Vehicle.max_fuel v ≠ 0%R) (FleetOptimizerService.vehicles self) →
  ∃ recs, get_optimization_recommendations self = Ret recs ∧
          efficiency_entries recs
          = ledger_recommendations (FleetOptimizerService.optimization_history self).
Proof.
  intros Hnz. eexists. split; [by apply get_optimization_recommendations_nonzero|].
  unfold efficiency_entries. rewrite filter_app.
  fold (efficiency_entries (mjoin (vehicle_recommendations <$>
                                     FleetOptimizerService.vehicles self))).
  fold (efficiency_entries (ledger_recommendations
                              (FleetOptimizerService.optimization_history self))).
  rewrite efficiency_entries_ledger, efficiency_entries_fuel; [done|].
  apply Forall_join, Forall_fmap, Forall_forall. intros v _.
  apply vehicle_recommendations_fuel.
Qed.

(** C5, as stated, fails in its first half: with exactly 5 runs in the
    history the guard [len(history) > 5] is false, so five runs at 0.5
    produce no efficiency_improvement entry. *)
Lemma five_runs_at_half_give_no_entry :
  ¬ ∃ recs,
      get_optimization_recommendations (with_history (replicate 5 (run_with_score 0.5)))
        = Ret recs ∧
      length (efficiency_entries recs) = 1.
Proof.
  intros (recs & Hrecs & Hone).
  destruct (efficiency_entries_recommendations
              (with_history (replicate 5 (run_with_score 0.5)))) as (recs' & Hrun & Hent).
  { constructor. }
  rewrite Hrun in Hrecs. injection Hrecs as ->.
  rewrite Hent in Hone. unfold ledger_recommendations in Hone.
  rewrite decide_False in Hone; [done|]. simpl. lia.
Qed.

(** C5, amended. With no vehicle of [max_fuel] 0 in the fleet state: when
    the history holds more than 5 runs, each with efficiency score 0.5,
    the recommendations include exactly one efficiency_improvement entry;
    when it holds 5 runs or fewer, whatever their scores, or when every
    run has score 0.9, there is none. *)
Theorem efficiency_improvement_entries self :
  Forall (λ v, Vehicle.max_fuel v ≠ 0%R) (FleetOptimizerService.vehicles self) →
  ∃ recs,
    get_optimization_recommendations self = Ret recs ∧
    (5 < length (FleetOptimizerService.optimization_history self) →
     Forall (λ opt, efficiency_score opt = 0.5%R)
       (FleetOptimizerService.optimization_history self) →
     efficiency_entries recs = [efficiency_improvement 0.5]) ∧
    (length (FleetOptimizerService.optimization_history self) ≤ 5 →
     efficiency_entries recs = []) ∧
    (Forall (λ opt, efficiency_score opt = 0.9%R)
       (FleetOptimizerService.optimization_history self) →
     efficiency_entries recs = []).
Proof.
  intros Hnz.
  destruct (efficiency_entries_recommendations self Hnz) as (recs & Hrun & Hent).
  exists recs. split; [done|]. rewrite Hent. unfold ledger_recommendations. split_and!.
  - intros Hlen Hall. rewrite decide_True by done.
    rewrite (recent_mean_const 0.5) by done. rewrite decide_True by lra. done.
  - intros Hlen. rewrite decide_False by lia. done.
  - intros Hall. case_decide as Hlen; [|done].
    rewrite (recent_mean_const 0.9) by done. rewrite decide_False by lra. done.
Qed.

Lemma efficiency_improvement_entries_witness :
  Forall (λ v, Vehicle.max_fuel v ≠ 0%R)
    (FleetOptimizerService.vehicles (with_history (replicate 6 (run_with_score 0.5)))) ∧
  ∃ recs,
    get_optimization_recommendations (with_history (replicate 6 (run_with_score 0.5)))
      = Ret recs ∧
    efficiency_entries recs = [efficiency_improvement 0.5].
Proof.
  assert (Forall (λ v, Vehicle.max_fuel v ≠ 0%R)
            (FleetOptimizerService.vehicles
               (with_history (replicate 6 (run_with_score 0.5))))) as Hnz
    by constructor.
  split; [exact Hnz|].
  destruct (efficiency_improvement_entries _ Hnz) as (recs & Hrun & Hhalf & _).
  exists recs. split; [exact Hrun|]. apply Hhalf.
  - simpl. lia.
  - repeat constructor.
Defined.

(** ** The service as a state machine *)

Lemma assign_routes_total deliveries vehicles :
  ∃ result, assign_routes deliveries vehicles = Ret result.
Proof.
  unfold assign_routes. destruct (max_fuel_cases vehicles) as [Hnz|Hz].
  - destruct (sorted_by_fuel_total vehicles Hnz) as (vs & -> & Hvs).
    rewrite comp_bind_Ret.
    destruct (assign_loop_entries deliveries vehicles vs) as (asg & un & -> & _).
    { by rewrite Hvs. }
    rewrite comp_bind_Ret. eauto.
  - rewrite sorted_by_fuel_zero by done. simpl. eauto.
Qed.

Lemma get_optimization_recommendations_no_vehicles self :
  FleetOptimizerService.vehicles self = [] →
  get_optimization_recommendations self
  = Ret (ledger_recommendations (FleetOptimizerService.optimization_history self)).
Proof.
  intros Hv. rewrite get_optimization_recommendations_nonzero; rewrite Hv; [done|].
  constructor.
Qed.

Lemma ledger_no_fuel_entries history r :
  r ∈ ledger_recommendations history → is_fuel_recommendation r = false.
Proof.
  unfold ledger_recommendations. repeat case_decide; try by intros ?%not_elem_of_nil.
  by intros ->%list_elem_of_singleton.
Qed.

Lemma handle_keeps_vehicles_empty self req :
  FleetOptimizerService.vehicles self = [] →
  ∃ self' resp, handle self req = Ret (self', resp) ∧
                FleetOptimizerService.vehicles self' = [] ∧
                no_fuel_entries resp.
Proof.
  intros Hv. destruct req as [|body|body| |limit]; simpl.
  - eexists _, _. split; [done|]. split; [done|]. by intros r ?%not_elem_of_nil.
  - destruct body as [|e|deliveries vehicles]; simpl.
    + eexists _, _. split; [done|]. split; [done|]. by intros r ?%not_elem_of_nil.
    + eexists _, _. split; [done|]. split; [done|]. by intros r ?%not_elem_of_nil.
    + destruct (assign_routes_total deliveries vehicles) as (result & ->).
      rewrite comp_bind_Ret.
      rewrite get_optimization_recommendations_no_vehicles by done.
      rewrite comp_bind_Ret. eexists _, _. split; [done|]. split; [done|].
      intros r Hr. by eapply ledger_no_fuel_entries.
  - destruct body as [|e|vehicle distance]; simpl.
    + eexists _, _. split; [done|]. split; [done|]. by intros r ?%not_elem_of_nil.
    + eexists _, _. split; [done|]. split; [done|]. by intros r ?%not_elem_of_nil.
    + destruct (decide (Vehicle.max_fuel vehicle = 0%R)).
      * rewrite calculate_fuel_efficiency_zero by done.
        eexists _, _. split; [done|]. split; [done|]. by intros r ?%not_elem_of_nil.
      * rewrite calculate_fuel_efficiency_nonzero by done.
        eexists _, _. split; [done|]. split; [done|]. by intros r ?%not_elem_of_nil.
  - unfold get_recommendations.
    rewrite get_optimization_recommendations_no_vehicles by done.
    rewrite comp_bind_Ret. eexists _, _. split; [done|]. split; [done|].
    intros r Hr. by eapply ledger_no_fuel_entries.
  - eexists _, _. split; [done|]. split; [done|]. by intros r ?%not_elem_of_nil.
Qed.

(** C10. [self.vehicles] starts empty and no endpoint writes to it: after
    any sequence of API calls it is still empty, every call has returned,
    and no recommendation list returned by /optimize or /recommendations
    holds a fuel_alert or fuel_warning entry. *)
Theorem no_fuel_recommendation_ever (reqs : list Request) :
  ∃ self' resps,
    serve FleetOptimizerService.init reqs = Ret (self', resps) ∧
    FleetOptimizerService.vehicles self' = [] ∧
    ∀ resp r, resp ∈ resps → r ∈ recommendations_of resp →
              is_fuel_recommendation r = false.
Proof.
  assert (∀ self, FleetOptimizerService.vehicles self = [] →
            ∃ self' resps, serve self reqs = Ret (self', resps) ∧
                           FleetOptimizerService.vehicles self' = [] ∧
                           Forall no_fuel_entries resps) as Hgen.
  { induction reqs as [|req reqs IH]; intros self Hv; simpl.
    - by exists self, [].
    - destruct (handle_keeps_vehicles_empty self req Hv) as (self1 & resp & -> & Hv1 & Hr).
      rewrite comp_bind_Ret.
      destruct (IH self1 Hv1) as (self2 & resps & -> & Hv2 & Hrs).
      rewrite comp_bind_Ret. exists self2, (resp :: resps).
      split; [done|]. split; [done|]. by constructor. }
  destruct (Hgen FleetOptimizerService.init eq_refl) as (self' & resps & Hrun & Hv & Hall).
  exists self', resps. split; [done|]. split; [done|].
  intros resp r Hresp Hr. rewrite Forall_forall in Hall. by apply (Hall resp).
Qed.

(** ** Runs of the assignment engine *)

Lemma NoDup_routes_disjoint (asg : gmap string RouteResult) k1 k2 r1 r2 x :
  NoDup (assigned_stops asg) →
  k1 ≠ k2 → asg !! k1 = Some r1 → asg !! k2 = Some r2 →
  x ∈ route r1 → x ∉ route r2.
Proof.
  intros Hnd Hne H1 H2 Hx1 Hx2.
  rewrite (assigned_stops_lookup asg k1 r1 H1) in Hnd.
  apply NoDup_app in Hnd as (_ & Hdisj & _).
  apply (Hdisj x Hx1).
  eapply (assigned_stops_elem_of _ k2 r2); [|done].
  by rewrite lookup_delete_ne.
Qed.

(** C2, amended. For every delivery list and every vehicle list in which
    no vehicle has [max_fuel] 0 and the vehicle ids are pairwise distinct,
    [assign_routes] returns a result in which the stops of all routes
    together with the unassigned stops are, as a multiset, the submitted
    deliveries; when the submitted deliveries are pairwise distinct, no
    stop is both assigned and unassigned and no stop is in two routes. *)
Theorem assign_routes_partitions deliveries vehicles :
  Forall (λ v, Vehicle.max_fuel v ≠ 0%R) vehicles →
  NoDup (Vehicle.id <$> vehicles) →
  ∃ r, assign_routes deliveries vehicles = Ret (AssignOk r) ∧
       assigned_stops (assignments r) ++ unassigned_deliveries r ≡ₚ deliveries ∧
       (NoDup deliveries → partitions deliveries r).
Proof.
  intros Hnz Hids. unfold assign_routes.
  destruct (sorted_by_fuel_total vehicles Hnz) as (vs & -> & Hvs).
  rewrite comp_bind_Ret.
  destruct (assign_loop_partition deliveries vs) as (asg & un & -> & Hp).
  { by rewrite Hvs. }
  rewrite comp_bind_Ret. eexists. split; [done|]. simpl. split; [done|].
  intros Hnd. rewrite <-Hp in Hnd.
  apply NoDup_app in Hnd as (Hasg & Hdisj & _).
  split_and!; simpl; [done|done|].
  intros k1 k2 r1 r2 x. by apply NoDup_routes_disjoint.
Qed.

(** The calls of a run: each is made for a vehicle of the list, on the
    first (up to 5) qualifying stops of the pool scanned for it. *)
Lemma route_calls_spec deliveries vehicles vs :
  vs ⊆ vehicles →
  ∀ un, un `sublist_of` deliveries →
    ∀ c, c ∈ route_calls vs un →
      call_vehicle c ∈ vehicles ∧
      call_pool c `sublist_of` deliveries ∧
      call_stops c = candidates (call_vehicle c) (call_pool c) ∧
      call_stops c ≠ [].
Proof.
  induction vs as [|v rest IH]; intros Hin un Hun c Hc; simpl in Hc.
  { by apply not_elem_of_nil in Hc. }
  assert (rest ⊆ vehicles) as Hrest by (intros w Hw; apply Hin; by right).
  destruct un as [|d un0]; [by apply not_elem_of_nil in Hc|].
  set (un := d :: un0) in *.
  rewrite find_suitable_candidates in Hc.
  destruct (candidates v un) as [|x xs] eqn:Hx; [by eapply IH|].
  rewrite <-Hx in Hc.
  apply elem_of_cons in Hc as [->|Hc].
  { simpl. split_and!; [apply Hin; by left|done|done|by rewrite Hx]. }
  destruct (optimize_route_total (candidates v un) v) as ([r|e] & Hr & _);
    rewrite Hr in Hc; [|by eapply IH].
  destruct (for_each_remove_total (candidates v un) un) as (un' & Hrm & _ & Hs).
  { apply sublist_submseteq, candidates_sublist. }
  rewrite Hrm in Hc. eapply IH; [done| |done]. by etrans.
Qed.

(** The assignments of the loop are what its calls leave, one after the
    other. *)
Lemma assign_loop_calls vs :
  ∀ asg un, ∃ un',
    assign_loop vs asg un = Ret (foldl record_call asg (route_calls vs un), un').
Proof.
  induction vs as [|v rest IH]; intros asg un; simpl.
  { by exists un. }
  destruct un as [|d un0]; [by exists []|].
  set (un := d :: un0) in *.
  rewrite find_suitable_candidates.
  destruct (candidates v un) as [|x xs] eqn:Hx; [apply IH|].
  rewrite <-Hx. cbn [foldl]. unfold record_call at 2. cbn [call_stops call_vehicle].
  destruct (optimize_route_total (candidates v un) v) as ([r|e] & -> & _);
    rewrite comp_bind_Ret; [|apply IH].
  destruct (for_each_remove_total (candidates v un) un) as (un' & -> & _).
  { apply sublist_submseteq, candidates_sublist. }
  rewrite comp_bind_Ret. apply IH.
Qed.

Lemma record_call_lookup calls :
  ∀ asg k rr, foldl record_call asg calls !! k = Some rr →
    asg !! k = Some rr ∨
    ∃ c, c ∈ calls ∧ Vehicle.id (call_vehicle c) = k ∧
         optimize_route (call_stops c) (call_vehicle c) = Ret (RouteOk rr).
Proof.
  induction calls as [|c calls IH]; intros asg k rr Hk; simpl in Hk; [by left|].
  apply IH in Hk as [Hk|(c' & Hc' & Hid & Hr)].
  - unfold record_call in Hk.
    destruct (optimize_route (call_stops c) (call_vehicle c)) as [[r|e]|e|] eqn:Hr;
      try by left.
    destruct (decide (Vehicle.id (call_vehicle c) = k)) as [Hid|Hid].
    + subst k. rewrite lookup_insert_eq in Hk. injection Hk as ->.
      right. exists c. split_and!; [by left|done|done].
    + rewrite lookup_insert_ne in Hk by done. by left.
  - right. exists c'. split_and!; [by right|done|done].
Qed.

(** C3. Every run of [assign_routes] returns.  A run either fails on a
    vehicle with [max_fuel] 0, and then assigns nothing, or goes through
    the vehicles in the sorted order and calls [optimize_route] as listed
    by [route_calls]: each call is made for a vehicle of the list, after a
    scan of the pool left at that point, on the first (up to 5) stops of
    that pool that lie under 50 km from the vehicle, in pool order.  The
    assignments of the run are what these calls leave, so that every
    recorded route is the result of one of them, for a vehicle of that id:
    it is a reordering of the stops of the call, has at most 5 stops, and
    each lies under 50 km from the vehicle's position.  The scan
    [find_suitable] picks exactly the first qualifying stops, whatever
    their distances among themselves. *)
Theorem assign_routes_candidates deliveries vehicles :
  (∀ v pool, find_suitable v pool = take 5 (filter (near v) pool)) ∧
  ((∃ vs r,
      sorted_by_fuel vehicles = Ret vs ∧
      assign_routes deliveries vehicles = Ret (AssignOk r) ∧
      (∀ c, c ∈ route_calls vs deliveries →
         call_vehicle c ∈ vehicles ∧
         call_pool c `sublist_of` deliveries ∧
         call_stops c = take 5 (filter (near (call_vehicle c)) (call_pool c)) ∧
         call_stops c ≠ []) ∧
      assignments r = foldl record_call ∅ (route_calls vs deliveries) ∧
      ∀ k rr, assignments r !! k = Some rr →
        ∃ c, c ∈ route_calls vs deliveries ∧
             Vehicle.id (call_vehicle c) = k ∧
             optimize_route (call_stops c) (call_vehicle c) = Ret (RouteOk rr) ∧
             route rr ≡ₚ find_suitable (call_vehicle c) (call_pool c) ∧
             length (route rr) ≤ 5 ∧
             Forall (near (call_vehicle c)) (route rr)) ∨
   (Exists (λ v, Vehicle.max_fuel v = 0%R) vehicles ∧
    assign_routes deliveries vehicles = Ret (AssignError ZeroDivisionError))).
Proof.
  split; [apply find_suitable_candidates|].
  unfold assign_routes. destruct (max_fuel_cases vehicles) as [Hnz|Hz].
  - left. destruct (sorted_by_fuel_total vehicles Hnz) as (vs & -> & Hvs).
    rewrite comp_bind_Ret.
    assert (vs ⊆ vehicles) as Hin by (by rewrite Hvs).
    pose proof (route_calls_spec deliveries vehicles vs Hin deliveries
                  (reflexivity _)) as Hcalls.
    destruct (assign_loop_calls vs ∅ deliveries) as (un & ->).
    rewrite comp_bind_Ret. eexists vs, _. split_and!; [done|done|done|done|]. simpl.
    intros k rr Hk. apply record_call_lookup in Hk as [Hk|(c & Hc & Hid & Hr)].
    { by rewrite lookup_empty in Hk. }
    destruct (Hcalls c Hc) as (_ & _ & Hstops & _).
    assert (route rr ≡ₚ candidates (call_vehicle c) (call_pool c)) as Hp.
    { destruct (optimize_route_total (call_stops c) (call_vehicle c))
        as (d & Hd & Hspec).
      rewrite Hr in Hd. injection Hd as <-. destruct Hspec as (_ & Hp & _).
      by rewrite <-Hstops. }
    exists c. rewrite find_suitable_candidates. split_and!; try done.
    + rewrite Hp. apply candidates_length.
    + rewrite Hp. apply candidates_near.
  - right. split; [done|]. by rewrite sorted_by_fuel_zero.
Qed.

(** ** Evaluation on concrete inputs *)

Lemma route_loop_step fuel la lo unvisited s d k route total :
  unvisited ≠ [] →
  find_nearest la lo unvisited = Ret (Some (s, d)) →
  list_remove s unvisited = Ret k →
  route_loop (S fuel) la lo unvisited route total
  = route_loop fuel (DeliveryStop.latitude s) (DeliveryStop.longitude s) k
      (route ++ [s]) (total + d)%R.
Proof.
  intros Hne Hn Hk. destruct unvisited as [|x l]; [done|].
  cbn [route_loop]. by rewrite Hn, comp_bind_Ret, Hk.
Qed.

(** Priorities and durations of everyday size convert. *)
Lemma small_priority_convertible (stop : DeliveryStop.t) :
  (Z.abs (DeliveryStop.priority stop - 1) <= 10000000)%Z → convertible_priority stop.
Proof. apply small_float_range. Qed.

Lemma list_remove_head `{EqDecision A} (x : A) (l : list A) :
  list_remove x (x :: l) = Ret l.
Proof. simpl. by rewrite decide_True. Qed.

Lemma list_remove_tail `{EqDecision A} (x y : A) (l k : list A) :
  y ≠ x → list_remove x l = Ret k → list_remove x (y :: l) = Ret (y :: k).
Proof. intros Hne Hk. simpl. rewrite decide_False by done. by rewrite Hk. Qed.

Lemma raw_distance_equator lon1 (stop : DeliveryStop.t) :
  DeliveryStop.latitude stop = 0%R →
  (0 <= DeliveryStop.longitude stop - lon1 <= 180)%R →
  raw_distance 0 lon1 stop
  = (6371 * ((DeliveryStop.longitude stop - lon1) * (PI / 180)))%R.
Proof.
  intros Hlat Hlon. unfold raw_distance. rewrite Hlat.
  by apply calculate_distance_equator.
Qed.

Lemma assign_loop_skip v rest asg un :
  un ≠ [] → candidates v un = [] →
  assign_loop (v :: rest) asg un = assign_loop rest asg un.
Proof.
  intros Hne Hc. destruct un as [|d un]; [done|].
  cbn [assign_loop]. by rewrite find_suitable_candidates, Hc.
Qed.

Lemma assign_loop_record v rest asg un r un' :
  candidates v un ≠ [] →
  optimize_route (candidates v un) v = Ret (RouteOk r) →
  remove_each (candidates v un) un = Ret un' →
  assign_loop (v :: rest) asg un = assign_loop rest (<[Vehicle.id v := r]> asg) un'.
Proof.
  intros Hne Hr Hun. destruct un as [|d un].
  { unfold candidates in Hne. by rewrite filter_nil, take_nil in Hne. }
  cbn [assign_loop]. rewrite find_suitable_candidates.
  destruct (candidates v (d :: un)) as [|c cs] eqn:Hc; [done|].
  by rewrite Hr, comp_bind_Ret, Hun, comp_bind_Ret.
Qed.

Lemma assign_loop_fail v rest asg un e :
  candidates v un ≠ [] →
  optimize_route (candidates v un) v = Ret (RouteError e) →
  assign_loop (v :: rest) asg un = assign_loop rest asg un.
Proof.
  intros Hne Hr. destruct un as [|d un].
  { unfold candidates in Hne. by rewrite filter_nil, take_nil in Hne. }
  cbn [assign_loop]. rewrite find_suitable_candidates.
  destruct (candidates v (d :: un)) as [|c cs] eqn:Hc; [done|].
  by rewrite Hr, comp_bind_Ret.
Qed.

Lemma sorted_by_fuel_single v :
  Vehicle.max_fuel v ≠ 0%R → sorted_by_fuel [v] = Ret [v].
Proof.
  intros Hnz. unfold sorted_by_fuel. simpl. by rewrite fuel_ratio_nonzero.
Qed.

Lemma find_nearest_singleton la lo (stop : DeliveryStop.t) :
  convertible_priority stop →
  find_nearest la lo [stop] = Ret (Some (stop, raw_distance la lo stop)).
Proof. intros Hs. unfold find_nearest. cbn [for_each]. by rewrite nearest_step_first. Qed.

Ltac small_int :=
  first [apply small_priority_convertible | apply small_float_range];
  rewrite ?total_service_time_sum; unfold sum_durations; simpl; lia.

Lemma raw_far_discounted :
  raw_distance 0 0 far_discounted = (6371 * (0.1 * (PI / 180)))%R.
Proof. rewrite raw_distance_equator; simpl; [f_equal; lra|done|lra]. Qed.

Lemma raw_close_plain :
  raw_distance 0 0 close_plain = (6371 * (0.08 * (PI / 180)))%R.
Proof. rewrite raw_distance_equator; simpl; [f_equal; lra|done|lra]. Qed.

Lemma adjusted_far_discounted :
  adjusted_distance 0 0 far_discounted = (6371 * (0.1 * (PI / 180)) * 0.6)%R.
Proof.
  unfold adjusted_distance.
  rewrite raw_far_discounted. simpl. rewrite minus_IZR. lra.
Qed.

Lemma adjusted_close_plain :
  adjusted_distance 0 0 close_plain = (6371 * (0.08 * (PI / 180)))%R.
Proof.
  unfold adjusted_distance.
  rewrite raw_close_plain. simpl. rewrite minus_IZR. lra.
Qed.

(** C1 at a failing input. Seen from (0,0), the stop at longitude 0.1 with
    priority 5 has the minimal adjusted score of the two, and comes first
    in iteration order; the scan nevertheless settles on the stop at
    longitude 0.08, because the candidate's adjusted score is compared
    with the raw distance kept for the stop found so far.  The route
    visits that stop first; the total is the sum of the raw legs. *)
Theorem optimize_route_misses_min_adjusted :
  min_adjusted 0 0 [far_discounted; close_plain] far_discounted ∧
  find_nearest 0 0 [far_discounted; close_plain]
    = Ret (Some (close_plain, raw_distance 0 0 close_plain)) ∧
  ∃ r, optimize_route [far_discounted; close_plain] scenario_vehicle = Ret (RouteOk r) ∧
       route r = [close_plain; far_discounted] ∧
       total_distance r
       = (0 + raw_distance 0 0 close_plain
          + raw_distance 0 0.08 far_discounted)%R.
Proof.
  pose proof PI_RGT_0 as Hpi.
  assert (find_nearest 0 0 [far_discounted; close_plain]
          = Ret (Some (close_plain, raw_distance 0 0 close_plain))) as Hfirst.
  { unfold find_nearest. cbn [for_each].
    rewrite nearest_step_first, comp_bind_Ret by small_int.
    rewrite nearest_step_take; [done|small_int|].
    rewrite adjusted_close_plain, raw_far_discounted. lra. }
  split_and!.
  - exists 0. split; [done|]. intros j other Hj.
    destruct j as [|[|j]]; simpl in Hj; try done; injection Hj as <-.
    + split; [lra|lia].
    + rewrite adjusted_far_discounted, adjusted_close_plain. split; [lra|lia].
  - exact Hfirst.
  - unfold optimize_route. cbn [length].
    rewrite (route_loop_step 1 _ _ _ close_plain (raw_distance 0 0 close_plain)
               [far_discounted]); [|done|exact Hfirst|].
    2:{ apply list_remove_tail; [done|]. apply list_remove_head. }
    rewrite (route_loop_step 0 _ _ _ far_discounted
               (raw_distance 0 0.08 far_discounted) []); [|done| |].
    2:{ apply find_nearest_singleton. small_int. }
    2:{ apply list_remove_head. }
    cbn [route_loop]. rewrite comp_bind_Ret.
    rewrite float_of_int_range by small_int.
    cbn. eexists. split; [reflexivity|]. done.
Qed.

Lemma scenario_stop1_far : ¬ near scenario_vehicle scenario_stop1.
Proof.
  pose proof PI_gt_3. unfold near. simpl.
  rewrite raw_distance_equator; simpl; [lra|done|lra].
Qed.

Lemma scenario_stop2_far : ¬ near scenario_vehicle scenario_stop2.
Proof.
  pose proof PI_gt_3. unfold near. simpl.
  rewrite raw_distance_equator; simpl; [lra|done|lra].
Qed.

Lemma scenario_run :
  assign_routes [scenario_stop1; scenario_stop2] [scenario_vehicle]
  = Ret (AssignOk (mkAssignResult ∅ [scenario_stop1; scenario_stop2] 0 0)).
Proof.
  unfold assign_routes.
  rewrite sorted_by_fuel_single by (simpl; lra). rewrite comp_bind_Ret.
  rewrite assign_loop_skip; [done|done|].
  unfold candidates.
  rewrite filter_cons_False by apply scenario_stop1_far.
  rewrite filter_cons_False by apply scenario_stop2_far.
  done.
Qed.

(** C4, as stated, fails: in the scenario the vehicle's route does not
    hold both deliveries; it has no route at all. *)
Lemma scenario_not_both_assigned :
  ¬ ∃ r rr,
      assign_routes [scenario_stop1; scenario_stop2] [scenario_vehicle]
        = Ret (AssignOk r) ∧
      assignments r !! Vehicle.id scenario_vehicle = Some rr ∧
      scenario_stop1 ∈ route rr ∧ scenario_stop2 ∈ route rr.
Proof.
  intros (r & rr & Hrun & Hrr & _). rewrite scenario_run in Hrun.
  injection Hrun as <-. simpl in Hrr. by rewrite lookup_empty in Hrr.
Qed.

(** C4, amended. In scenario B one degree of longitude on the equator is
    more than 50 km, so neither delivery qualifies for the one vehicle:
    [assign_routes] records no route, returns both deliveries unassigned,
    in submission order, and reports 0 vehicles used and 0 deliveries
    assigned. *)
Theorem scenario_nothing_assigned :
  (50 <= raw_distance 0 0 scenario_stop1)%R ∧
  (50 <= raw_distance 0 0 scenario_stop2)%R ∧
  assign_routes [scenario_stop1; scenario_stop2] [scenario_vehicle]
  = Ret (AssignOk (mkAssignResult ∅ [scenario_stop1; scenario_stop2] 0 0)).
Proof.
  split_and!.
  - apply Rnot_lt_le, scenario_stop1_far.
  - apply Rnot_lt_le, scenario_stop2_far.
  - apply scenario_run.
Qed.

Lemma reach_stop1_near lon :
  (0 <= lon <= 0.1)%R →
  raw_distance 0 lon reach_stop1 = (6371 * ((0.1 - lon) * (PI / 180)))%R.
Proof. intros. rewrite raw_distance_equator; simpl; [done|done|lra]. Qed.

Lemma reach_stop2_near lon :
  (0 <= lon <= 0.2)%R →
  raw_distance 0 lon reach_stop2 = (6371 * ((0.2 - lon) * (PI / 180)))%R.
Proof. intros. rewrite raw_distance_equator; simpl; [done|done|lra]. Qed.

(** Scenario B with both stops within reach: both go to the one vehicle,
    the stop at longitude 0.1 first because the discounted score of the
    other does not beat its raw distance, and the total is the sum of the
    two raw legs. *)
Lemma reach_scenario_run :
  ∃ r rr,
    assign_routes [reach_stop1; reach_stop2] [scenario_vehicle] = Ret (AssignOk r) ∧
    assignments r = {[ "v1"%string := rr ]} ∧
    unassigned_deliveries r = [] ∧
    total_deliveries_assigned r = 2%Z ∧
    route rr = [reach_stop1; reach_stop2] ∧
    total_distance rr
    = (0 + raw_distance 0 0 reach_stop1 + raw_distance 0 0.1 reach_stop2)%R.
Proof.
  pose proof PI_RGT_0 as Hpi. pose proof PI_4 as Hpi4.
  assert (candidates scenario_vehicle [reach_stop1; reach_stop2]
          = [reach_stop1; reach_stop2]) as Hc.
  { unfold candidates.
    rewrite filter_cons_True.
    2:{ unfold near. simpl. rewrite reach_stop1_near by lra. lra. }
    rewrite filter_cons_True.
    2:{ unfold near. simpl. rewrite reach_stop2_near by lra. lra. }
    done. }
  assert (find_nearest 0 0 [reach_stop1; reach_stop2]
          = Ret (Some (reach_stop1, raw_distance 0 0 reach_stop1))) as Hfirst.
  { unfold find_nearest. cbn [for_each].
    rewrite nearest_step_first, comp_bind_Ret by small_int.
    rewrite nearest_step_keep; [done|small_int|]. unfold adjusted_distance.
    rewrite reach_stop1_near, reach_stop2_near by lra.
    simpl. rewrite minus_IZR. lra. }
  unfold assign_routes.
  rewrite sorted_by_fuel_single by (simpl; lra). rewrite comp_bind_Ret.
  erewrite assign_loop_record; [|by rewrite Hc| |].
  2:{ rewrite Hc. unfold optimize_route. cbn [length].
      rewrite (route_loop_step 1 _ _ _ reach_stop1 (raw_distance 0 0 reach_stop1)
                 [reach_stop2]); [|done|exact Hfirst|apply list_remove_head].
      rewrite (route_loop_step 0 _ _ _ reach_stop2 (raw_distance 0 0.1 reach_stop2)
                 []); [|done| |apply list_remove_head].
      2:{ apply find_nearest_singleton. small_int. }
      cbn [route_loop]. rewrite comp_bind_Ret.
      rewrite float_of_int_range by small_int.
      cbn. reflexivity. }
  2:{ rewrite Hc. unfold remove_each. cbn [for_each].
      rewrite list_remove_head, comp_bind_Ret.
      rewrite list_remove_head, comp_bind_Ret. reflexivity. }
  cbn [assign_loop]. rewrite comp_bind_Ret.
  eexists _, _. split; [reflexivity|]. simpl. split_and!; try done.
Qed.

Ltac small_stops :=
  split; [simpl; repeat constructor; small_int|small_int].

Lemma sorted_by_fuel_twins : sorted_by_fuel [twin_west; twin_east] = Ret [twin_west; twin_east].
Proof.
  unfold sorted_by_fuel. simpl.
  rewrite !fuel_ratio_nonzero by (simpl; lra). simpl.
  rewrite decide_False by lra. done.
Qed.

Lemma route_singleton stops vehicle x r :
  stops = [x] →
  optimize_route stops vehicle = Ret (RouteOk r) → route r = [x].
Proof.
  intros -> Hr. apply optimize_route_Ok in Hr as [Hp _].
  by apply Permutation_singleton_r.
Qed.

Lemma twins_run :
  ∃ r rr,
    assign_routes [stop_west; stop_east] [twin_west; twin_east] = Ret (AssignOk r) ∧
    assignments r = {[ "v"%string := rr ]} ∧
    route rr = [stop_east] ∧
    unassigned_deliveries r = [].
Proof.
  pose proof PI_gt_3 as Hpi.
  assert (candidates twin_west [stop_west; stop_east] = [stop_west]) as Hw.
  { unfold candidates. rewrite filter_cons_True.
    2:{ unfold near, raw_distance. simpl. rewrite calculate_distance_same. lra. }
    rewrite filter_cons_False; [done|].
    unfold near. simpl. rewrite raw_distance_equator; simpl; [lra|done|lra]. }
  assert (candidates twin_east [stop_east] = [stop_east]) as He.
  { unfold candidates. rewrite filter_cons_True; [done|].
    unfold near, raw_distance. simpl. rewrite calculate_distance_same. lra. }
  destruct (optimize_route_buildable [stop_west] twin_west) as (r1 & Hr1 & _);
    [small_stops|].
  destruct (optimize_route_buildable [stop_east] twin_east) as (r2 & Hr2 & _);
    [small_stops|].
  unfold assign_routes. rewrite sorted_by_fuel_twins, comp_bind_Ret.
  rewrite (assign_loop_record _ _ _ _ r1 [stop_east]).
  2:{ by rewrite Hw. }
  2:{ by rewrite Hw. }
  2:{ rewrite Hw. unfold remove_each. cbn [for_each].
      by rewrite list_remove_head, comp_bind_Ret. }
  rewrite (assign_loop_record _ _ _ _ r2 []).
  2:{ by rewrite He. }
  2:{ by rewrite He. }
  2:{ rewrite He. unfold remove_each. cbn [for_each].
      by rewrite list_remove_head, comp_bind_Ret. }
  cbn [assign_loop]. rewrite comp_bind_Ret.
  eexists _, r2. split; [reflexivity|]. simpl. split_and!.
  - by rewrite insert_insert_eq, insert_empty.
  - by apply (route_singleton [stop_east] twin_east).
  - done.
Qed.

(** C2, as stated, fails: two vehicles submitted under the same id share
    one key of the assignments dict, so the route recorded for the first
    is overwritten by the route of the second while its stops have left
    the pool.  The stop given to the first vehicle is then in no route and
    not among the unassigned. *)
Lemma twin_ids_lose_a_stop :
  ¬ ∃ r,
      assign_routes [stop_west; stop_east] [twin_west; twin_east] = Ret (AssignOk r) ∧
      partitions [stop_west; stop_east] r.
Proof.
  intros (r & Hrun & Hp & _).
  destruct twins_run as (r' & rr & Hrun' & Hasg & Hroute & Hun).
  rewrite Hrun in Hrun'. injection Hrun' as <-.
  rewrite Hasg, Hun in Hp. unfold assigned_stops in Hp.
  rewrite map_to_list_singleton in Hp. simpl in Hp. rewrite Hroute in Hp.
  apply Permutation_length in Hp. done.
Qed.

(** Equal stops submitted more than five times: five are routed and the
    sixth, an equal value, is left over. *)
Lemma repeated_stop_overlaps :
  ∃ r,
    assign_routes (replicate 6 stop_west) [twin_west] = Ret (AssignOk r) ∧
    stop_west ∈ assigned_stops (assignments r) ∧
    stop_west ∈ unassigned_deliveries r.
Proof.
  assert (near twin_west stop_west) as Hnear.
  { unfold near, raw_distance. simpl. rewrite calculate_distance_same. lra. }
  assert (candidates twin_west (replicate 6 stop_west) = replicate 5 stop_west) as Hc.
  { unfold candidates. simpl. by rewrite !filter_cons_True. }
  destruct (optimize_route_buildable (replicate 5 stop_west) twin_west)
    as (r1 & Hr1 & Hp & _); [small_stops|].
  unfold assign_routes.
  rewrite sorted_by_fuel_single by (simpl; lra). rewrite comp_bind_Ret.
  rewrite (assign_loop_record _ _ _ _ r1 [stop_west]).
  2:{ by rewrite Hc. }
  2:{ by rewrite Hc. }
  2:{ rewrite Hc. unfold remove_each. cbn [for_each replicate].
      by repeat rewrite list_remove_head, comp_bind_Ret. }
  cbn [assign_loop]. rewrite comp_bind_Ret.
  eexists. split; [reflexivity|]. simpl. split.
  - eapply (assigned_stops_elem_of _ "v"%string r1).
    + apply lookup_insert_eq.
    + rewrite Hp. simpl. set_solver.
  - set_solver.
Qed.

Lemma assign_routes_partitions_witness :
  Forall (λ v, Vehicle.max_fuel v ≠ 0%R) [scenario_vehicle; twin_east] ∧
  NoDup (Vehicle.id <$> [scenario_vehicle; twin_east]) ∧
  ∃ r,
    assign_routes [stop_west; stop_east] [scenario_vehicle; twin_east] = Ret (AssignOk r) ∧
    partitions [stop_west; stop_east] r.
Proof.
  assert (Forall (λ v, Vehicle.max_fuel v ≠ 0%R) [scenario_vehicle; twin_east]) as Hnz
    by (repeat constructor; simpl; lra).
  assert (NoDup (Vehicle.id <$> [scenario_vehicle; twin_east])) as Hids
    by (simpl; apply NoDup_cons; split;
        [intros Hin%list_elem_of_singleton; discriminate Hin|apply NoDup_singleton]).
  split; [exact Hnz|]. split; [exact Hids|].
  destruct (assign_routes_partitions [stop_west; stop_east] _ Hnz Hids)
    as (r & Hrun & _ & Hpart).
  exists r. split; [exact Hrun|]. apply Hpart.
  apply NoDup_cons; split; [|apply NoDup_singleton].
  intros Hin. apply list_elem_of_singleton in Hin. discriminate Hin.
Defined.

Lemma get_optimization_recommendations_total self :
  ∃ recs, get_optimization_recommendations self = Ret recs.
Proof.
  destruct (max_fuel_cases (FleetOptimizerService.vehicles self)) as [Hnz|Hz].
  - rewrite get_optimization_recommendations_nonzero by done. eauto.
  - rewrite get_optimization_recommendations_zero by done. eauto.
Qed.

(** C6 at a failing input. A vehicle submitted with [max_fuel] 0 makes
    the sort key of [assign_routes] divide by zero; the run fails and
    returns the error dict.  The handler still appends a record for the run
    to the history, with 0 assignments and efficiency score 0, and answers
    with the error dict as the result. *)
Theorem failed_run_is_recorded self deliveries :
  assign_routes deliveries [no_tank] = Ret (AssignError ZeroDivisionError) ∧
  ∃ recs,
    optimize_routes self (Payload deliveries [no_tank])
    = Ret (record_history self
             (mkOptimizationRecord (length deliveries) 1 0
                (0 / IZR (Z.max 1 (Z.of_nat (length deliveries))))),
           OptimizeResponse (AssignError ZeroDivisionError) recs) ∧
    length (FleetOptimizerService.optimization_history
              (record_history self
                 (mkOptimizationRecord (length deliveries) 1 0
                    (0 / IZR (Z.max 1 (Z.of_nat (length deliveries)))))))
    = S (length (FleetOptimizerService.optimization_history self)).
Proof.
  assert (assign_routes deliveries [no_tank] = Ret (AssignError ZeroDivisionError)) as Hrun.
  { unfold assign_routes. rewrite sorted_by_fuel_zero; [done|].
    by apply Exists_cons_hd. }
  split; [exact Hrun|].
  unfold optimize_routes. rewrite Hrun, comp_bind_Ret. cbn [get_total_deliveries_assigned].
  destruct (get_optimization_recommendations_total
              (record_history self
                 (mkOptimizationRecord (length deliveries) 1 0
                    (0 / IZR (Z.max 1 (Z.of_nat (length deliveries))))))) as (recs & Hrecs).
  exists recs. split.
  - cbn [length]. rewrite Hrecs. done.
  - simpl. rewrite length_app. simpl. lia.
Qed.

Lemma equator_stop_near id lon :
  (0 <= lon <= 0.3)%R → near scenario_vehicle (equator_stop id lon).
Proof.
  intros Hlon. pose proof PI_4. pose proof PI_RGT_0.
  unfold near. simpl. rewrite raw_distance_equator; simpl; [nra|done|lra].
Qed.

(** The cap keeps the first five qualifying stops of the pool, not the
    five closest: the sixth stop is closer than every stop kept. *)
Lemma candidates_not_closest :
  candidates scenario_vehicle crowded_pool = take 5 crowded_pool ∧
  (equator_stop "p6" 0.1 ∉ candidates scenario_vehicle crowded_pool) ∧
  ∀ kept, kept ∈ candidates scenario_vehicle crowded_pool →
    (raw_distance 0 0 (equator_stop "p6" 0.1) < raw_distance 0 0 kept)%R.
Proof.
  assert (candidates scenario_vehicle crowded_pool = take 5 crowded_pool) as Hc.
  { unfold candidates, crowded_pool.
    by rewrite !filter_cons_True by (apply equator_stop_near; lra). }
  pose proof PI_RGT_0. split; [exact Hc|]. rewrite Hc. simpl. split.
  - intros Hin. repeat (apply elem_of_cons in Hin as [Heq|Hin]; [discriminate Heq|]).
    by apply not_elem_of_nil in Hin.
  - intros kept Hin.
    repeat (apply elem_of_cons in Hin as [->|Hin];
            [rewrite !raw_distance_equator; simpl; first [lra|done]|]).
    by apply not_elem_of_nil in Hin.
Qed.

(** A request rejected before the assignment runs leaves the service
    state, and so the history, as it was. *)
Lemma rejected_request_keeps_state self :
  optimize_routes self NoData = Ret (self, Error400) ∧
  ∀ e, optimize_routes self (BadField e) = Ret (self, Error500 e).
Proof. done. Qed.

(** * Further properties of the code *)

(** ** Range of the distance *)

Lemma cos_product (p q : R) :
  (cos p * cos q = cos ((p + q) / 2) ^ 2 - sin ((q - p) / 2) ^ 2)%R.
Proof.
  set (y := ((p + q) / 2)%R). set (x := ((q - p) / 2)%R).
  replace p with (y - x)%R by (unfold x, y; lra).
  replace q with (y + x)%R at 1 by (unfold x, y; lra).
  rewrite cos_minus, cos_plus.
  pose proof (sin2_cos2 x) as Hx. pose proof (sin2_cos2 y) as Hy.
  unfold Rsqr in Hx, Hy.
  assert (cos x * cos x = 1 - sin x * sin x)%R as Hcx by lra.
  assert (sin y * sin y = 1 - cos y * cos y)%R as Hsy by lra.
  transitivity (cos y * cos y * (cos x * cos x) - sin y * sin y * (sin x * sin x))%R;
    [ring|]. rewrite Hcx, Hsy. ring.
Qed.

Lemma haversine_range lat1 lon1 lat2 lon2 :
  (0 <= haversine lat1 lon1 lat2 lon2 <= 1)%R.
Proof.
  unfold haversine. rewrite cos_product.
  set (x := ((radians lat2 - radians lat1) / 2)%R).
  set (y := ((radians lat1 + radians lat2) / 2)%R).
  set (d := ((radians lon2 - radians lon1) / 2)%R).
  pose proof (sin2_cos2 x) as Hx. pose proof (sin2_cos2 y) as Hy.
  pose proof (sin2_cos2 d) as Hd. unfold Rsqr in *.
  assert (0 <= sin x * sin x <= 1)%R by nra.
  assert (0 <= cos y * cos y <= 1)%R by nra.
  assert (0 <= sin d * sin d <= 1)%R by nra.
  nra.
Qed.

Lemma asin_nonneg x : (0 <= x <= 1)%R → (0 <= asin x)%R.
Proof.
  intros Hx. destruct (Rle_or_lt 0 (asin x)) as [|Hneg]; [done|].
  pose proof (asin_bound x) as [Hlo _]. pose proof PI_RGT_0.
  assert (sin (asin x) < 0)%R by (apply sin_lt_0_var; lra).
  rewrite sin_asin in * by lra. lra.
Qed.

(** X1. The term under the square root of [calculate_distance] always lies
    between 0 and 1, so neither [math.sqrt] nor [math.asin] is taken
    outside its domain; the distance is never negative and never more than
    half the circumference of the sphere, 6371 * pi km. *)
Theorem calculate_distance_range lat1 lon1 lat2 lon2 :
  calculate_distance lat1 lon1 lat2 lon2
    = (6371 * (2 * asin (sqrt (haversine lat1 lon1 lat2 lon2))))%R ∧
  (0 <= haversine lat1 lon1 lat2 lon2 <= 1)%R ∧
  (0 <= calculate_distance lat1 lon1 lat2 lon2 <= 6371 * PI)%R.
Proof.
  split; [reflexivity|]. split; [apply haversine_range|].
  change (calculate_distance lat1 lon1 lat2 lon2)
    with (6371 * (2 * asin (sqrt (haversine lat1 lon1 lat2 lon2))))%R.
  pose proof (haversine_range lat1 lon1 lat2 lon2) as [H0 H1].
  set (a := haversine lat1 lon1 lat2 lon2) in *.
  assert (0 <= sqrt a <= 1)%R as Hs.
  { split; [apply sqrt_pos|]. rewrite <-sqrt_1. by apply sqrt_le_1_alt. }
  pose proof (asin_nonneg _ Hs). pose proof (asin_bound (sqrt a)) as [_ ?].
  lra.
Qed.

(** X2. Between two points of the same longitude whose latitudes differ by
    at most 180 degrees, the distance is the arc of the latitude
    difference: 6371 * |lat2 - lat1| * pi / 180 km. *)
Theorem calculate_distance_meridian lat1 lat2 lon :
  (Rabs (lat2 - lat1) <= 180)%R →
  calculate_distance lat1 lon lat2 lon = (6371 * (Rabs (lat2 - lat1) * (PI / 180)))%R.
Proof.
  intros Hle. pose proof PI_RGT_0 as Hpi.
  unfold calculate_distance; cbv zeta.
  replace ((radians lon - radians lon) / 2)%R with 0%R by lra. rewrite sin_0.
  set (h := ((radians lat2 - radians lat1) / 2)%R).
  assert (Hh : h = ((lat2 - lat1) * (PI / 360))%R) by (unfold h, radians; lra).
  replace (sin h ^ 2 + cos (radians lat1) * cos (radians lat2) * 0 ^ 2)%R
    with (Rsqr (sin h)) by (unfold Rsqr; ring).
  rewrite sqrt_Rsqr_abs.
  destruct (Rle_or_lt 0 (lat2 - lat1)) as [Hpos|Hneg].
  - rewrite (Rabs_pos_eq (lat2 - lat1)) in * by done.
    assert (0 <= h <= PI / 2)%R as [? ?] by (rewrite Hh; split; nra).
    rewrite Rabs_pos_eq by (apply sin_ge_0; lra).
    rewrite asin_sin by lra. rewrite Hh. lra.
  - rewrite (Rabs_left (lat2 - lat1)) in * by done.
    assert (- (PI / 2) <= h < 0)%R as [? ?] by (rewrite Hh; split; nra).
    rewrite Rabs_left by (apply sin_lt_0_var; lra).
    rewrite <-sin_neg. rewrite asin_sin by lra. rewrite Hh. lra.
Qed.

(** ** Routes *)




Lemma adjusted_priority_1 la lo s :
  DeliveryStop.priority s = 1%Z → adjusted_distance la lo s = raw_distance la lo s.
Proof.
  intros Hp. unfold adjusted_distance. rewrite Hp, minus_IZR. lra.
Qed.

Lemma priority_1_convertible s :
  DeliveryStop.priority s = 1%Z → convertible_priority s.
Proof. intros Hp. apply small_priority_convertible. rewrite Hp. simpl. lia. Qed.

Lemma foldl_nearest_priority_1 la lo (l : list DeliveryStop.t) :
  ∀ seen s0,
    first_nearest la lo seen s0 →
    Forall (λ s, DeliveryStop.priority s = 1%Z) l →
    ∃ s, for_each (nearest_step la lo) (Some (s0, raw_distance la lo s0)) l
         = Ret (Some (s, raw_distance la lo s)) ∧
         first_nearest la lo (seen ++ l) s.
Proof.
  induction l as [|x l IH]; intros seen s0 Hmin Hall.
  - exists s0. by rewrite app_nil_r.
  - apply Forall_cons in Hall as [Hx Hall]. cbn [for_each].
    pose proof (priority_1_convertible x Hx) as Hcx.
    replace (seen ++ x :: l) with ((seen ++ [x]) ++ l) by (by rewrite <-app_assoc).
    destruct Hmin as (before & after & -> & Hb & Ha).
    destruct (decide (adjusted_distance la lo x < raw_distance la lo s0)%R) as [Hlt|Hge].
    + rewrite nearest_step_take, comp_bind_Ret by done. apply IH; [|done].
      rewrite adjusted_priority_1 in Hlt by done.
      exists (before ++ s0 :: after), []. split_and!.
      * done.
      * intros other Hin. apply elem_of_app in Hin as [Hin|Hin].
        -- specialize (Hb _ Hin). lra.
        -- apply elem_of_cons in Hin as [->|Hin]; [done|]. specialize (Ha _ Hin). lra.
      * by intros other ?%not_elem_of_nil.
    + rewrite nearest_step_keep, comp_bind_Ret by done. apply IH; [|done].
      rewrite adjusted_priority_1 in Hge by done.
      exists before, (after ++ [x]). split_and!.
      * by rewrite <-!app_assoc.
      * done.
      * intros other Hin. apply elem_of_app in Hin as [Hin|Hin]; [by apply Ha|].
        apply list_elem_of_singleton in Hin as ->. lra.
Qed.

(** X5. When every unvisited stop has priority 1, the scan selects the
    stop nearest by raw distance, the first such in list order: the route
    builder is then a plain nearest-neighbour search. *)
Theorem find_nearest_priority_1 la lo (unvisited : list DeliveryStop.t) :
  unvisited ≠ [] →
  Forall (λ s, DeliveryStop.priority s = 1%Z) unvisited →
  ∃ s, find_nearest la lo unvisited = Ret (Some (s, raw_distance la lo s)) ∧
       first_nearest la lo unvisited s.
Proof.
  intros Hne Hall. destruct unvisited as [|x l]; [done|].
  apply Forall_cons in Hall as [Hx Hall].
  unfold find_nearest. cbn [for_each].
  rewrite nearest_step_first, comp_bind_Ret by (by apply priority_1_convertible).
  apply (foldl_nearest_priority_1 la lo l [x] x); [|done].
  exists [], []. split_and!; [done|by intros ? ?%not_elem_of_nil..].
Qed.

(** ** The scan and the vehicle order *)



Lemma mapM_fuel_ratio_keys (vehicles : list Vehicle.t) keys :
  mapM fuel_ratio vehicles = Ret keys →
  keys = fuel_key <$> vehicles ∧ Forall (λ v, Vehicle.max_fuel v ≠ 0%R) vehicles.
Proof.
  revert keys. induction vehicles as [|v vs IH]; intros keys; simpl.
  - by intros [= <-].
  - destruct (decide (Vehicle.max_fuel v = 0%R)) as [Hz|Hnz].
    { by rewrite fuel_ratio_zero. }
    rewrite fuel_ratio_nonzero by done. rewrite comp_bind_Ret.
    destruct (mapM fuel_ratio vs) as [ks| |]; try done. rewrite comp_bind_Ret.
    intros [= <-]. destruct (IH ks eq_refl) as [-> ?]. split; [done|by constructor].
Qed.

Lemma zip_fmap_keys (vehicles : list Vehicle.t) :
  zip (fuel_key <$> vehicles) vehicles = (λ v, (fuel_key v, v)) <$> vehicles.
Proof. induction vehicles as [|v vs IH]; simpl; [done|]. by f_equal. Qed.

Lemma insert_desc_sorted kv l :
  StronglySorted key_desc l → StronglySorted key_desc (insert_desc kv l).
Proof.
  induction 1 as [|y l Hl IH Hy]; simpl.
  - repeat constructor.
  - destruct (decide (kv.1 < y.1)%R) as [Hlt|Hge].
    + constructor; [done|].
      rewrite (insert_desc_perm kv l). constructor; [|done].
      unfold key_desc. lra.
    + constructor; [by constructor|].
      constructor; [unfold key_desc; lra|].
      eapply Forall_impl; [exact Hy|]. unfold key_desc. intros z ?. lra.
Qed.

Lemma sort_desc_sorted l : StronglySorted key_desc (sort_desc l).
Proof.
  induction l as [|kv l IH]; simpl; [constructor|]. by apply insert_desc_sorted.
Qed.

Lemma insert_desc_filter (k : R) kv l :
  filter (λ p : R * Vehicle.t, p.1 = k) (insert_desc kv l)
  = filter (λ p : R * Vehicle.t, p.1 = k) (kv :: l).
Proof.
  induction l as [|y l IH]; simpl; [done|].
  destruct (decide (kv.1 < y.1)%R) as [Hlt|Hge]; [|done].
  rewrite filter_cons, IH. rewrite !(filter_cons _ kv), (filter_cons _ y).
  repeat case_decide; try done. simpl in *. lra.
Qed.

Lemma sort_desc_filter (k : R) l :
  filter (λ p : R * Vehicle.t, p.1 = k) (sort_desc l)
  = filter (λ p : R * Vehicle.t, p.1 = k) l.
Proof.
  induction l as [|kv l IH]; simpl; [done|].
  rewrite insert_desc_filter, !filter_cons, IH. done.
Qed.

Lemma decorated_sorted (l : list (R * Vehicle.t)) :
  Forall (λ p, p.1 = fuel_key p.2) l →
  StronglySorted key_desc l →
  StronglySorted (λ v w, (fuel_key w <= fuel_key v)%R) (l.*2).
Proof.
  intros Hk. induction 1 as [|p l Hl IH Hp]; simpl; [constructor|].
  apply Forall_cons in Hk as [Hpk Hk]. constructor; [by apply IH|].
  apply Forall_fmap. rewrite Forall_forall in Hk, Hp. apply Forall_forall.
  intros q Hq. simpl. specialize (Hk q Hq). specialize (Hp q Hq).
  unfold key_desc in Hp. rewrite <-Hpk, <-Hk. done.
Qed.

Lemma decorated_filter (k : R) (l : list (R * Vehicle.t)) :
  Forall (λ p, p.1 = fuel_key p.2) l →
  filter (λ v, fuel_key v = k) (l.*2) = (filter (λ p : R * Vehicle.t, p.1 = k) l).*2.
Proof.
  induction 1 as [|p l Hp _ IH]; [done|].
  rewrite fmap_cons, !filter_cons. cbn [snd]. rewrite IH.
  repeat case_decide; try done; congruence.
Qed.

(** X6. When no vehicle has [max_fuel] 0, the vehicles are processed in an
    order that is a rearrangement of the submitted list, non-increasing in
    fuel_level / max_fuel, and stable: vehicles of equal ratio keep their
    submitted order. *)
Theorem sorted_by_fuel_order vehicles :
  Forall (λ v, Vehicle.max_fuel v ≠ 0%R) vehicles →
  ∃ vs, sorted_by_fuel vehicles = Ret vs ∧
        vs ≡ₚ vehicles ∧
        StronglySorted (λ v w, (fuel_key w <= fuel_key v)%R) vs ∧
        ∀ k, filter (λ v, fuel_key v = k) vs = filter (λ v, fuel_key v = k) vehicles.
Proof.
  intros Hnz. unfold sorted_by_fuel.
  destruct (mapM_fuel_ratio_Ret vehicles Hnz) as (keys & Hkeys & _).
  rewrite Hkeys, comp_bind_Ret.
  apply mapM_fuel_ratio_keys in Hkeys as [-> _]. rewrite zip_fmap_keys.
  set (dec := (λ v, (fuel_key v, v)) <$> vehicles).
  assert (Forall (λ p, p.1 = fuel_key p.2) dec) as Hdec.
  { unfold dec. apply Forall_fmap, Forall_forall. by intros v _. }
  assert (dec.*2 = vehicles) as Hsnd.
  { unfold dec. rewrite <-list_fmap_compose. apply list_fmap_id. }
  assert (Forall (λ p, p.1 = fuel_key p.2) (sort_desc dec)) as Hsdec.
  { by rewrite sort_desc_perm. }
  eexists. split; [reflexivity|]. split_and!.
  - by rewrite sort_desc_perm, Hsnd.
  - apply decorated_sorted; [done|apply sort_desc_sorted].
  - intros k. rewrite decorated_filter by done.
    rewrite sort_desc_filter, <-decorated_filter by done. by rewrite Hsnd.
Qed.

(** ** Runs of the vehicle loop *)

Section assign_loop_run.
Variable Inv : list Vehicle.t → gmap string RouteResult → list DeliveryStop.t → Prop.
Hypothesis Inv_pass : ∀ v rest asg un,
  Inv (v :: rest) asg un → un ≠ [] → candidates v un = [] → Inv rest asg un.
Hypothesis Inv_assign : ∀ v rest asg un r un',
  Inv (v :: rest) asg un →
  candidates v un ≠ [] →
  optimize_route (candidates v un) v = Ret (RouteOk r) →
  remove_each (candidates v un) un = Ret un' →
  Inv rest (<[Vehicle.id v := r]> asg) un'.
Hypothesis Inv_fail : ∀ v rest asg un e,
  Inv (v :: rest) asg un →
  candidates v un ≠ [] →
  optimize_route (candidates v un) v = Ret (RouteError e) →
  Inv rest asg un.

Lemma assign_loop_run vs :
  ∀ asg un, Inv vs asg un →
    ∃ asg' un' rest, assign_loop vs asg un = Ret (asg', un') ∧
                     Inv rest asg' un' ∧ (rest = [] ∨ un' = []).
Proof using Inv_pass Inv_assign Inv_fail.
  induction vs as [|v rest IH]; intros asg un HI.
  - exists asg, un, []. split_and!; [done|done|by left].
  - destruct (decide (un = [])) as [->|Hne].
    { exists asg, [], (v :: rest). split_and!; [done|done|by right]. }
    destruct (decide (candidates v un = [])) as [Hc|Hc].
    { rewrite assign_loop_skip by done. apply IH. by apply (Inv_pass v). }
    destruct (optimize_route_total (candidates v un) v) as ([r|e] & Hr & _).
    + destruct (for_each_remove_total (candidates v un) un) as (un' & Hun & _).
      { apply sublist_submseteq, candidates_sublist. }
      rewrite (assign_loop_record v rest asg un r un') by done.
      apply IH. by apply (Inv_assign v rest asg un).
    + rewrite (assign_loop_fail v rest asg un e) by done.
      apply IH. by apply (Inv_fail v rest asg un e).
Qed.
End assign_loop_run.

Lemma remove_each_Ret suitable (pool pool' : list DeliveryStop.t) :
  remove_each suitable pool = Ret pool' →
  pool ≡ₚ suitable ++ pool' ∧ pool' `sublist_of` pool.
Proof.
  unfold remove_each. revert pool.
  induction suitable as [|x s IH]; intros pool; simpl.
  - by intros [= ->].
  - intros H. apply bind_Ret in H as (k & Hk & H).
    apply list_remove_Ret in Hk as [Hp Hs].
    destruct (IH _ H) as [Hp' Hs']. split.
    + by rewrite Hp, Hp'.
    + by etrans.
Qed.

Lemma optimize_route_Ret stops vehicle r :
  stops ≠ [] →
  optimize_route stops vehicle = Ret (RouteOk r) →
  route r ≡ₚ stops ∧ vehicle_id r = Some (Vehicle.id vehicle) ∧
  stops_count r = Some (length (route r)).
Proof.
  intros Hne Hr. unfold optimize_route in Hr. destruct stops as [|x l]; [done|].
  destruct (convertible_cases (x :: l)) as [Hall|Hex].
  - destruct (route_loop_total (length (x :: l))
                (Vehicle.current_lat vehicle) (Vehicle.current_lon vehicle)
                (x :: l) [] 0%R) as (route' & total' & Hrun & Hp); [done|done|].
    rewrite Hrun, comp_bind_Ret in Hr. cbn beta iota in Hr.
    destruct (decide (float_range (total_service_time route'))) as [Hsum|Hsum].
    + rewrite float_of_int_range in Hr by done. cbn in Hr.
      injection Hr as <-. simpl. done.
    + by rewrite float_of_int_overflow in Hr.
  - cbn [length] in Hr. by rewrite route_loop_overflow in Hr.
Qed.

Lemma assign_routes_Ok deliveries vehicles r :
  assign_routes deliveries vehicles = Ret (AssignOk r) →
  ∃ vs, sorted_by_fuel vehicles = Ret vs ∧ vs ≡ₚ vehicles ∧
        assign_loop vs ∅ deliveries = Ret (assignments r, unassigned_deliveries r) ∧
        total_vehicles_used r = size (assignments r) ∧
        total_deliveries_assigned r
          = (Z.of_nat (length deliveries) - Z.of_nat (length (unassigned_deliveries r)))%Z.
Proof.
  unfold assign_routes. intros Hrun.
  destruct (max_fuel_cases vehicles) as [Hnz|Hz].
  - destruct (sorted_by_fuel_total vehicles Hnz) as (vs & Hs & Hvs).
    rewrite Hs, comp_bind_Ret in Hrun. exists vs. split; [done|]. split; [done|].
    destruct (assign_loop vs ∅ deliveries) as [[asg un]| |]; try done.
    cbn in Hrun. injection Hrun as <-. done.
  - rewrite sorted_by_fuel_zero in Hrun by done. done.
Qed.


(** X8. Empty inputs are not errors.  With no vehicles every delivery comes
    back unassigned, in submission order, with no vehicle used; with no
    deliveries (and no vehicle of [max_fuel] 0) nothing is assigned. *)
Theorem assign_routes_empty_inputs :
  (∀ deliveries,
     assign_routes deliveries []
     = Ret (AssignOk (mkAssignResult ∅ deliveries 0 0))) ∧
  (∀ vehicles,
     Forall (λ v, Vehicle.max_fuel v ≠ 0%R) vehicles →
     assign_routes [] vehicles = Ret (AssignOk (mkAssignResult ∅ [] 0 0))).
Proof.
  split.
  - intros deliveries. unfold assign_routes. cbn. do 3 f_equal. lia.
  - intros vehicles Hnz. unfold assign_routes.
    destruct (sorted_by_fuel_total vehicles Hnz) as (vs & -> & _).
    rewrite comp_bind_Ret. by destruct vs.
Qed.

(** X9. In every successful run the unassigned stops are a subsequence of
    the submitted deliveries; the number of deliveries assigned lies
    between 0 and the number submitted and is at most 5 per vehicle; no
    more vehicles are used than were submitted; and every recorded route is
    non-empty, has at most 5 stops, carries its own key as vehicle id and
    reports its own length as stops_count. *)
Theorem assign_routes_bookkeeping deliveries vehicles r :
  assign_routes deliveries vehicles = Ret (AssignOk r) →
  unassigned_deliveries r `sublist_of` deliveries ∧
  (0 <= total_deliveries_assigned r <= Z.of_nat (length deliveries))%Z ∧
  (total_deliveries_assigned r <= 5 * Z.of_nat (length vehicles))%Z ∧
  total_vehicles_used r ≤ length vehicles ∧
  map_Forall route_record_ok (assignments r).
Proof.
  intros Hrun.
  destruct (assign_routes_Ok _ _ _ Hrun) as (vs & _ & Hvs & Hloop & Hused & Hassigned).
  set (Inv := λ (rest : list Vehicle.t) (asg : gmap string RouteResult)
                (un : list DeliveryStop.t),
         un `sublist_of` deliveries ∧
         length deliveries + 5 * length rest ≤ length un + 5 * length vs ∧
         size asg + length rest ≤ length vs ∧
         map_Forall route_record_ok asg).
  destruct (assign_loop_run Inv) with (vs := vs) (asg := (∅ : gmap string RouteResult))
    (un := deliveries) as (asg & un & rest & Hrun' & (Hsub & Hcap & Hsize & Hrec) & _).
  - intros v rest asg un (Hsub & Hcap & Hsize & Hrec) _ _.
    simpl in *. split_and!; [done|lia|lia|done].
  - intros v rest asg un r0 un' (Hsub & Hcap & Hsize & Hrec) Hne Hr Hun.
    apply optimize_route_Ret in Hr as (Hr & Hid & Hcount); [|done].
    apply remove_each_Ret in Hun as [Hp Hs].
    pose proof (candidates_length v un) as Hfive.
    apply Permutation_length in Hp. rewrite length_app in Hp.
    simpl in *. split_and!.
    + by etrans.
    + lia.
    + destruct (asg !! Vehicle.id v) as [r1|] eqn:Hk.
      * rewrite map_size_insert_Some by done. lia.
      * rewrite map_size_insert_None by done. lia.
    + apply map_Forall_insert_2; [|done]. split_and!; try done.
      * intros Hnil. rewrite Hnil in Hr. by apply Permutation_nil_l in Hr.
      * by rewrite Hr.
  - intros v rest asg un e (Hsub & Hcap & Hsize & Hrec) _ _.
    simpl in *. split_and!; [done|lia|lia|done].
  - split_and!; [done|lia|rewrite map_size_empty; lia|apply map_Forall_empty].
  - rewrite Hloop in Hrun'. injection Hrun' as <- <-.
    apply Permutation_length in Hvs. apply sublist_length in Hsub as Hlen.
    rewrite Hused, Hassigned. split_and!; [done|lia|lia|lia|lia|done].
Qed.

Lemma candidates_short_all v (un un' : list DeliveryStop.t) x :
  length (candidates v un) < 5 →
  un ≡ₚ candidates v un ++ un' →
  x ∈ un' → ¬ near v x.
Proof.
  intros Hlen Hp Hx. unfold candidates in *.
  assert (length (filter (near v) un) < 5) as Hshort.
  { rewrite length_take in Hlen. lia. }
  rewrite take_ge in Hp by lia.
  rewrite <-(filter_app_complement (near v) un) in Hp at 1.
  apply Permutation_app_inv_l in Hp.
  rewrite <-Hp in Hx. by apply list_elem_of_filter in Hx as [? _].
Qed.

Lemma small_stops_buildable (stops : list DeliveryStop.t) :
  Forall (λ s, (Z.abs (DeliveryStop.priority s - 1) <= 1000000)%Z ∧
               (Z.abs (DeliveryStop.estimated_duration s) <= 1000000)%Z) stops →
  length stops ≤ 5 → buildable stops.
Proof.
  intros Hall Hlen. split.
  - eapply Forall_impl; [exact Hall|]. intros s [Hp _].
    apply small_priority_convertible. lia.
  - apply small_float_range.
    assert (Z.abs (sum_durations stops) <= 1000000 * Z.of_nat (length stops))%Z.
    { clear Hlen. induction Hall as [|s l [_ Hs] _ IH]; simpl; lia. }
    lia.
Qed.

Lemma small_stops_no_overflow (deliveries : list DeliveryStop.t) :
  Forall (λ s, (Z.abs (DeliveryStop.priority s - 1) <= 1000000)%Z ∧
               (Z.abs (DeliveryStop.estimated_duration s) <= 1000000)%Z) deliveries →
  no_overflow deliveries.
Proof.
  intros Hall stops Hsub Hlen. apply small_stops_buildable; [|done].
  apply Forall_forall. intros s Hs. rewrite Forall_forall in Hall.
  apply Hall. by eapply elem_of_sublist.
Qed.

(** X10. With distinct vehicle ids, no [max_fuel] 0, and deliveries of
    which no selection of up to five overflows a route build (no
    [priority - 1] and no sum of durations beyond the float range): a stop
    is left unassigned only if every vehicle within 50 km of it was given a
    full route of 5 stops. *)
Theorem unassigned_only_past_full_vehicles deliveries vehicles :
  Forall (λ v, Vehicle.max_fuel v ≠ 0%R) vehicles →
  NoDup (Vehicle.id <$> vehicles) →
  no_overflow deliveries →
  ∃ r, assign_routes deliveries vehicles = Ret (AssignOk r) ∧
       ∀ v x, v ∈ vehicles → x ∈ unassigned_deliveries r → near v x →
         ∃ rr, assignments r !! Vehicle.id v = Some rr ∧ length (route rr) = 5.
Proof.
  intros Hnz Hids Hsmall. unfold assign_routes.
  destruct (sorted_by_fuel_total vehicles Hnz) as (vs & -> & Hvs).
  rewrite comp_bind_Ret.
  assert (NoDup (Vehicle.id <$> vs)) as Hids' by (by rewrite Hvs).
  set (Inv := λ (rest : list Vehicle.t) (asg : gmap string RouteResult)
                (un : list DeliveryStop.t),
         ∃ seen, vs = seen ++ rest ∧
           un `sublist_of` deliveries ∧
           (∀ v, v ∈ rest → asg !! Vehicle.id v = None) ∧
           ∀ v x, v ∈ seen → x ∈ un → near v x →
             ∃ rr, asg !! Vehicle.id v = Some rr ∧ length (route rr) = 5).
  destruct (assign_loop_run Inv) with (vs := vs) (asg := (∅ : gmap string RouteResult))
    (un := deliveries) as (asg & un & rest & -> & (seen & Hsplit & _ & _ & Hfull) & Hend).
  - intros v rest asg un (seen & Hsplit & Hsub & Hfresh & Hfull) _ Hc.
    exists (seen ++ [v]). split_and!.
    + by rewrite <-app_assoc.
    + done.
    + intros w Hw. apply Hfresh. by right.
    + intros w x Hw Hx Hnear. apply elem_of_app in Hw as [Hw|Hw]; [by eapply Hfull|].
      apply list_elem_of_singleton in Hw as ->.
      assert (x ∈ filter (near v) un) as Hin by (by apply list_elem_of_filter).
      unfold candidates in Hc. destruct (filter (near v) un); [|done].
      by apply not_elem_of_nil in Hin.
  - intros v rest asg un r un' (seen & Hsplit & Hsub & Hfresh & Hfull) Hne Hr Hun.
    apply optimize_route_Ret in Hr as (Hr & _ & _); [|done].
    apply remove_each_Ret in Hun as [Hp Hs].
    assert ((Vehicle.id v ∉ Vehicle.id <$> seen) ∧ (Vehicle.id v ∉ Vehicle.id <$> rest))
      as [Hvseen Hvrest].
    { rewrite Hsplit, fmap_app, fmap_cons in Hids'.
      apply NoDup_app in Hids' as (_ & Hdisj & Hnd).
      apply NoDup_cons in Hnd as [? _]. split; [|done].
      intros Hin. apply (Hdisj _ Hin). by left. }
    exists (seen ++ [v]). split_and!.
    + by rewrite <-app_assoc.
    + by etrans.
    + intros w Hw. rewrite lookup_insert_ne.
      * apply Hfresh. by right.
      * intros Heq. apply Hvrest. rewrite Heq. by apply list_elem_of_fmap_2.
    + intros w x Hw Hx Hnear. apply elem_of_app in Hw as [Hw|Hw].
      * rewrite lookup_insert_ne.
        -- apply (Hfull w x); [done| |done]. by eapply elem_of_sublist.
        -- intros Heq. apply Hvseen. rewrite Heq. by apply list_elem_of_fmap_2.
      * apply list_elem_of_singleton in Hw as ->.
        exists r. split; [apply lookup_insert_eq|].
        rewrite Hr. pose proof (candidates_length v un) as Hle.
        destruct (decide (length (candidates v un) < 5)) as [Hlt|]; [|lia].
        by destruct (candidates_short_all v un un' x Hlt Hp Hx).
  - intros v rest asg un e (seen & Hsplit & Hsub & Hfresh & Hfull) Hne Hr.
    destruct (optimize_route_buildable (candidates v un) v) as (r & Hr' & _).
    { apply Hsmall; [|apply candidates_length].
      etrans; [apply candidates_sublist|done]. }
    by rewrite Hr in Hr'.
  - exists []. split_and!; [done|done| |].
    + intros v _. apply lookup_empty.
    + by intros v x ?%not_elem_of_nil.
  - rewrite comp_bind_Ret. eexists. split; [reflexivity|]. simpl.
    intros v x Hv Hx Hnear. destruct Hend as [->| ->].
    + rewrite app_nil_r in Hsplit. subst seen.
      apply (Hfull v x); [|done|done]. by rewrite Hvs.
    + by apply not_elem_of_nil in Hx.
Qed.

(** ** Fuel and history *)

(** X11. Whenever the evaluator returns a record: the deficit is never
    negative, is 0 exactly when the fuel on board covers the consumption,
    the consumption never exceeds fuel on board plus deficit, and
    needs_refuel is set exactly when the route is longer than
    12.5 * fuel_level + 62.5 km. *)
Theorem needs_refuel_threshold vehicle distance r :
  calculate_fuel_efficiency vehicle distance = Ret (FuelOk r) →
  (0 <= fuel_deficit r)%R ∧
  (fuel_deficit r = 0%R ↔ (distance * 0.08 <= Vehicle.fuel_level vehicle)%R) ∧
  (needs_refuel r = true ↔ (distance > 12.5 * Vehicle.fuel_level vehicle + 62.5)%R) ∧
  (estimated_fuel_consumption r
   <= Vehicle.fuel_level vehicle + fuel_deficit r)%R.
Proof.
  destruct (decide (Vehicle.max_fuel vehicle = 0%R)) as [Hz|Hnz].
  { by rewrite calculate_fuel_efficiency_zero. }
  rewrite calculate_fuel_efficiency_nonzero by done. intros [= <-]. simpl.
  rewrite bool_decide_eq_true. unfold Rmax.
  destruct (Rle_dec 0 (distance * 0.08 - Vehicle.fuel_level vehicle)); split_and!;
    try split; intros; lra.
Qed.

(** X12. [GET /history] leaves the state alone and returns a suffix of the
    history with the full count.  For [limit >= 1] it shows
    min(limit, count) runs; [limit = 0] shows the whole history, since
    [history[-0:]] is the whole list; a negative limit [-k] drops the
    first [k] runs. *)
Theorem get_optimization_history_window self limit :
  ∃ history,
    get_optimization_history self limit
    = (self, HistoryResponse history
               (length (FleetOptimizerService.optimization_history self))
               (length history)) ∧
    history `suffix_of` FleetOptimizerService.optimization_history self ∧
    ((1 <= limit)%Z →
     length history
     = Nat.min (Z.to_nat limit) (length (FleetOptimizerService.optimization_history self))) ∧
    (limit = 0%Z → history = FleetOptimizerService.optimization_history self) ∧
    ((limit < 0)%Z →
     history = drop (Z.to_nat (- limit)) (FleetOptimizerService.optimization_history self)).
Proof.
  unfold get_optimization_history.
  destruct (FleetOptimizerService.optimization_history self) as [|rec all] eqn:Hall.
  - exists []. split_and!; try done.
    + intros _. simpl. lia.
    + intros _. by rewrite drop_nil.
  - set (l := rec :: all). eexists. split; [reflexivity|]. unfold slice_from.
    split_and!.
    + apply suffix_drop.
    + intros Hpos. rewrite decide_True by lia. rewrite length_drop. lia.
    + intros ->. simpl. done.
    + intros Hneg. by rewrite decide_False by lia.
Qed.

(** ** The ledger across requests *)

Lemma assign_loop_unassigned_sublist deliveries vs asg un :
  assign_loop vs ∅ deliveries = Ret (asg, un) → un `sublist_of` deliveries.
Proof.
  intros Hloop.
  set (Inv := λ (rest : list Vehicle.t) (asg : gmap string RouteResult)
                (un : list DeliveryStop.t), un `sublist_of` deliveries).
  destruct (assign_loop_run Inv) with (vs := vs) (asg := (∅ : gmap string RouteResult))
    (un := deliveries) as (asg' & un' & rest & Hrun & Hsub & _).
  - by intros v rest asg0 un0 ? _ _.
  - intros v rest asg0 un0 r un1 Hsub _ _ Hun.
    apply remove_each_Ret in Hun as [_ Hs]. unfold Inv in *. by etrans.
  - by intros v rest asg0 un0 e ? _ _.
  - unfold Inv. reflexivity.
  - rewrite Hloop in Hrun. by injection Hrun as <- <-.
Qed.

Lemma assigned_count_bounds deliveries vehicles result :
  assign_routes deliveries vehicles = Ret result →
  (0 <= get_total_deliveries_assigned result <= Z.of_nat (length deliveries))%Z.
Proof.
  intros Hrun. destruct result as [r|e]; simpl; [|lia].
  destruct (assign_routes_Ok _ _ _ Hrun) as (vs & _ & _ & Hloop & _ & ->).
  apply assign_loop_unassigned_sublist, sublist_length in Hloop. lia.
Qed.

Lemma efficiency_score_range (assigned : Z) (n : nat) :
  (0 <= assigned <= Z.of_nat n)%Z →
  (0 <= IZR assigned / IZR (Z.max 1 (Z.of_nat n)) <= 1)%R.
Proof.
  intros [Hlo Hhi].
  assert (1 <= IZR (Z.max 1 (Z.of_nat n)))%R as Hden by (apply IZR_le; lia).
  assert (0 <= IZR assigned)%R by (apply IZR_le; lia).
  assert (IZR assigned <= IZR (Z.max 1 (Z.of_nat n)))%R by (apply IZR_le; lia).
  set (d := IZR (Z.max 1 (Z.of_nat n))) in *.
  assert (0 < / d)%R as Hinv by (apply Rinv_0_lt_compat; lra).
  assert (d * / d = 1)%R as Hone by (apply Rinv_r; lra).
  unfold Rdiv. split; nra.
Qed.


Lemma handle_effect self req :
  ∃ self' resp,
    handle self req = Ret (self', resp) ∧
    FleetOptimizerService.vehicles self' = FleetOptimizerService.vehicles self ∧
    FleetOptimizerService.routes self' = FleetOptimizerService.routes self ∧
    FleetOptimizerService.deliveries self' = FleetOptimizerService.deliveries self ∧
    (∃ new, FleetOptimizerService.optimization_history self'
            = FleetOptimizerService.optimization_history self ++ new ∧
            length new = (if is_run req then 1 else 0) ∧ Forall record_ok new) ∧
    (∀ a b, resp = HealthResponse a b →
       a = length (FleetOptimizerService.vehicles self) ∧
       b = length (FleetOptimizerService.routes self)).
Proof.
  assert (∃ new : list OptimizationRecord,
            FleetOptimizerService.optimization_history self
            = FleetOptimizerService.optimization_history self ++ new ∧
            length new = 0 ∧ Forall record_ok new) as Hsame.
  { exists []. by rewrite app_nil_r. }
  destruct req as [|body|body| |limit]; simpl.
  - eexists _, _. split; [done|]. split_and!; try done. by intros a b [= <- <-].
  - destruct body as [|e|deliveries vehicles]; simpl.
    + eexists _, _. split; [done|]. by split_and!.
    + eexists _, _. split; [done|]. by split_and!.
    + destruct (assign_routes_total deliveries vehicles) as (result & Hrun).
      pose proof (assigned_count_bounds _ _ _ Hrun) as Hb.
      rewrite Hrun, comp_bind_Ret.
      match goal with |- context [get_optimization_recommendations ?s] =>
        destruct (get_optimization_recommendations_total s) as (recs & ->) end.
      rewrite comp_bind_Ret. eexists _, _. split; [done|]. split_and!; try done.
      eexists [_]. split; [done|]. split; [done|].
      constructor; [|done]. split; [done|]. by apply efficiency_score_range.
  - destruct body as [|e|vehicle distance]; simpl.
    + eexists _, _. split; [done|]. by split_and!.
    + eexists _, _. split; [done|]. by split_and!.
    + destruct (decide (Vehicle.max_fuel vehicle = 0%R)).
      * rewrite calculate_fuel_efficiency_zero by done.
        eexists _, _. split; [done|]. by split_and!.
      * rewrite calculate_fuel_efficiency_nonzero by done.
        eexists _, _. split; [done|]. by split_and!.
  - unfold get_recommendations.
    destruct (get_optimization_recommendations_total self) as (recs & ->).
    rewrite comp_bind_Ret. eexists _, _. split; [done|]. by split_and!.
  - eexists _, _. split; [done|]. by split_and!.
Qed.

Lemma serve_effect reqs :
  ∀ self, ∃ self' resps new,
    serve self reqs = Ret (self', resps) ∧
    length resps = length reqs ∧
    FleetOptimizerService.vehicles self' = FleetOptimizerService.vehicles self ∧
    FleetOptimizerService.routes self' = FleetOptimizerService.routes self ∧
    FleetOptimizerService.deliveries self' = FleetOptimizerService.deliveries self ∧
    FleetOptimizerService.optimization_history self'
      = FleetOptimizerService.optimization_history self ++ new ∧
    length new = count_runs reqs ∧
    Forall record_ok new ∧
    (∀ a b, HealthResponse a b ∈ resps →
       a = length (FleetOptimizerService.vehicles self) ∧
       b = length (FleetOptimizerService.routes self)).
Proof.
  induction reqs as [|req reqs IH]; intros self; simpl.
  - exists self, [], []. rewrite app_nil_r. split_and!; try done.
    by intros a b ?%not_elem_of_nil.
  - destruct (handle_effect self req)
      as (self1 & resp & -> & Hv1 & Hr1 & Hd1 & (new1 & Hh1 & Hn1 & Hok1) & Hhealth1).
    rewrite comp_bind_Ret.
    destruct (IH self1)
      as (self2 & resps & new2 & -> & Hlen & Hv2 & Hr2 & Hd2 & Hh2 & Hn2 & Hok2 & Hhealth2).
    rewrite comp_bind_Ret. exists self2, (resp :: resps), (new1 ++ new2).
    split_and!; try congruence.
    + simpl. by rewrite Hlen.
    + by rewrite Hh2, Hh1, <-app_assoc.
    + by rewrite length_app, Hn1, Hn2.
    + by apply Forall_app.
    + intros a b Hin. apply elem_of_cons in Hin as [Heq|Hin].
      * by apply Hhealth1.
      * rewrite <-Hv1, <-Hr1. by apply Hhealth2.
Qed.


(** X15. No endpoint writes [self.routes] or [self.deliveries]: after any
    sequence of API calls both are still empty, and every health check has
    reported 0 vehicles registered and 0 active routes. *)
Theorem serve_registers_nothing reqs :
  ∃ self' resps,
    serve FleetOptimizerService.init reqs = Ret (self', resps) ∧
    FleetOptimizerService.routes self' = [] ∧
    FleetOptimizerService.deliveries self' = [] ∧
    ∀ a b, HealthResponse a b ∈ resps → a = 0 ∧ b = 0.
Proof.
  destruct (serve_effect reqs FleetOptimizerService.init)
    as (self' & resps & new & Hrun & _ & _ & Hr & Hd & _ & _ & _ & Hhealth).
  exists self', resps. by split_and!.
Qed.

Lemma vehicle_recommendations_length (vehicles : list Vehicle.t) :
  length (mjoin (vehicle_recommendations <$> vehicles)) ≤ length vehicles.
Proof.
  induction vehicles as [|v vs IH]; [done|].
  rewrite fmap_cons.
  change (mjoin (vehicle_recommendations v :: (vehicle_recommendations <$> vs)))
    with (vehicle_recommendations v ++ mjoin (vehicle_recommendations <$> vs)).
  rewrite length_app.
  assert (length (vehicle_recommendations v) ≤ 1)
    by (unfold vehicle_recommendations; repeat case_decide; simpl; lia).
  cbn [length]. lia.
Qed.

(** X16. [get_optimization_recommendations] either meets a vehicle with
    [max_fuel] 0 and returns the empty list, or returns at most one entry
    per vehicle plus one; an efficiency_improvement entry is present
    exactly when the history holds more than 5 runs and the mean of the
    last 5 efficiency scores is below 0.7, and it carries that mean. *)
Theorem recommendations_cases self :
  (Exists (λ v, Vehicle.max_fuel v = 0%R) (FleetOptimizerService.vehicles self) ∧
   get_optimization_recommendations self = Ret []) ∨
  (Forall (λ v, Vehicle.max_fuel v ≠ 0%R) (FleetOptimizerService.vehicles self) ∧
   ∃ recs,
     get_optimization_recommendations self = Ret recs ∧
     length recs ≤ length (FleetOptimizerService.vehicles self) + 1 ∧
     ∀ avg,
       efficiency_improvement avg ∈ recs ↔
       5 < length (FleetOptimizerService.optimization_history self) ∧
       avg = (sum_efficiency
                (drop (length (FleetOptimizerService.optimization_history self) - 5)
                   (FleetOptimizerService.optimization_history self)) / 5)%R ∧
       (avg < 0.7)%R).
Proof.
  destruct (max_fuel_cases (FleetOptimizerService.vehicles self)) as [Hnz|Hz].
  - right. split; [done|]. eexists.
    split; [by apply get_optimization_recommendations_nonzero|]. split.
    + rewrite length_app.
      assert (length (ledger_recommendations
                        (FleetOptimizerService.optimization_history self)) ≤ 1).
      { unfold ledger_recommendations. repeat case_decide; simpl; lia. }
      assert (length (mjoin (vehicle_recommendations
                               <$> FleetOptimizerService.vehicles self))
              ≤ length (FleetOptimizerService.vehicles self)).
      { apply vehicle_recommendations_length. }
      lia.
    + intros avg. rewrite elem_of_app. split.
      * intros [Hin|Hin].
        -- apply list_elem_of_join in Hin as (l & Hin & Hl).
           apply list_elem_of_fmap in Hl as (v & -> & _).
           apply elem_of_vehicle_recommendations in Hin as [[? _]|[? _]]; done.
        -- unfold ledger_recommendations, recent_mean in Hin.
           repeat case_decide; try by apply not_elem_of_nil in Hin.
           apply list_elem_of_singleton in Hin as [= ->]. done.
      * intros (Hlen & -> & Hlt). right.
        unfold ledger_recommendations, recent_mean.
        rewrite decide_True by done. rewrite decide_True by done. by left.
  - left. split; [done|]. by apply get_optimization_recommendations_zero.
Qed.

(** ** Instances *)

Lemma calculate_distance_meridian_witness :
  (Rabs (1 - 0) <= 180)%R ∧
  calculate_distance 0 0 1 0 = (6371 * (Rabs (1 - 0) * (PI / 180)))%R.
Proof.
  assert (Rabs (1 - 0) <= 180)%R as Hle by (rewrite Rabs_pos_eq; lra).
  split; [exact Hle|]. exact (calculate_distance_meridian 0 1 0 Hle).
Defined.


Lemma find_nearest_priority_1_witness :
  [reach_stop1; close_plain] ≠ [] ∧
  Forall (λ s, DeliveryStop.priority s = 1%Z) [reach_stop1; close_plain] ∧
  ∃ s, find_nearest 0 0 [reach_stop1; close_plain] = Ret (Some (s, raw_distance 0 0 s)) ∧
       first_nearest 0 0 [reach_stop1; close_plain] s.
Proof.
  assert ([reach_stop1; close_plain] ≠ []) as Hne by discriminate.
  assert (Forall (λ s, DeliveryStop.priority s = 1%Z) [reach_stop1; close_plain]) as Hall
    by (repeat constructor).
  split; [exact Hne|]. split; [exact Hall|].
  exact (find_nearest_priority_1 0 0 _ Hne Hall).
Defined.

Lemma sorted_by_fuel_order_witness :
  Forall (λ v, Vehicle.max_fuel v ≠ 0%R) [scenario_vehicle; twin_east] ∧
  ∃ vs, sorted_by_fuel [scenario_vehicle; twin_east] = Ret vs ∧
        vs ≡ₚ [scenario_vehicle; twin_east] ∧
        StronglySorted (λ v w, (fuel_key w <= fuel_key v)%R) vs.
Proof.
  assert (Forall (λ v, Vehicle.max_fuel v ≠ 0%R) [scenario_vehicle; twin_east]) as Hnz
    by (repeat constructor; simpl; lra).
  split; [exact Hnz|].
  destruct (sorted_by_fuel_order _ Hnz) as (vs & Hrun & Hp & Hs & _).
  exists vs. split; [exact Hrun|]. split; [exact Hp|exact Hs].
Defined.

Lemma assign_routes_bookkeeping_witness :
  ∃ r,
    assign_routes [reach_stop1; reach_stop2] [scenario_vehicle] = Ret (AssignOk r) ∧
    unassigned_deliveries r `sublist_of` [reach_stop1; reach_stop2] ∧
    (0 <= total_deliveries_assigned r <= 2)%Z ∧
    total_vehicles_used r ≤ 1 ∧
    map_Forall route_record_ok (assignments r).
Proof.
  destruct reach_scenario_run as (r & rr & Hrun & _).
  exists r. split; [exact Hrun|].
  destruct (assign_routes_bookkeeping _ _ r Hrun) as (Hsub & Hcount & _ & Hused & Hrec).
  split; [exact Hsub|]. split; [exact Hcount|]. split; [exact Hused|exact Hrec].
Defined.

Lemma unassigned_only_past_full_vehicles_witness :
  Forall (λ v, Vehicle.max_fuel v ≠ 0%R) [scenario_vehicle] ∧
  NoDup (Vehicle.id <$> [scenario_vehicle]) ∧
  no_overflow crowded_pool ∧
  ∃ r, assign_routes crowded_pool [scenario_vehicle] = Ret (AssignOk r) ∧
       ∀ v x, v ∈ [scenario_vehicle] → x ∈ unassigned_deliveries r → near v x →
         ∃ rr, assignments r !! Vehicle.id v = Some rr ∧ length (route rr) = 5.
Proof.
  assert (Forall (λ v, Vehicle.max_fuel v ≠ 0%R) [scenario_vehicle]) as Hnz
    by (repeat constructor; simpl; lra).
  assert (NoDup (Vehicle.id <$> [scenario_vehicle])) as Hids
    by (simpl; apply NoDup_singleton).
  assert (no_overflow crowded_pool) as Hsmall.
  { apply small_stops_no_overflow. repeat constructor; simpl; lia. }
  split; [exact Hnz|]. split; [exact Hids|]. split; [exact Hsmall|].
  exact (unassigned_only_past_full_vehicles crowded_pool _ Hnz Hids Hsmall).
Defined.

Lemma needs_refuel_threshold_witness :
  ∃ r,
    calculate_fuel_efficiency scenario_vehicle 700 = Ret (FuelOk r) ∧
    (needs_refuel r = true ↔ (700 > 12.5 * Vehicle.fuel_level scenario_vehicle + 62.5)%R).
Proof.
  assert (Vehicle.max_fuel scenario_vehicle ≠ 0%R) as Hnz by (simpl; lra).
  eexists. split; [exact (calculate_fuel_efficiency_nonzero scenario_vehicle 700 Hnz)|].
  exact (proj1 (proj2 (proj2 (needs_refuel_threshold scenario_vehicle 700 _
           (calculate_fuel_efficiency_nonzero scenario_vehicle 700 Hnz))))).
Defined.

